(** * comfy-parallel-sim: the pairing engine, the promise pool, the simulated
      runner and the collect step of [src/App.tsx], embedded in Rocq.

    The functions below follow [src/App.tsx] line by line.  JavaScript values
    are kept dynamically typed ([JsVal]) wherever the source inspects them at
    run time ([Array.isArray], [filter(Boolean)], [===], [.length]); loops are
    index loops over a threaded state, as in the source; a TypeError is an
    explicit result. *)

From Stdlib Require Import ZArith QArith Qround.
From stdpp Require Import base tactics option list gmap strings pretty.

Open Scope string_scope.
Open Scope list_scope.
Open Scope nat_scope.

(** ** JavaScript values *)

(** The values [buildJobs] can be handed: [undefined], [null], booleans,
    integral numbers, strings and arrays of such values.  Objects with
    properties of their own, functions, [NaN] and array holes are left out;
    a string is the sequence of its code units. *)
#[warnings="-register-all"] Inductive JsVal : Type :=
  | JUndefined
  | JNull
  | JBool (b : bool)
  | JNum (n : Z)
  | JStr (s : string)
  | JArr (elems : list JsVal).

(** [Boolean(v)]: the falsy values are [undefined], [null], [false], [0] and
    the empty string. *)
Definition truthy (v : JsVal) : bool :=
  match v with
  | JUndefined | JNull => false
  | JBool b => b
  | JNum n => negb (n =? 0)%Z
  | JStr s => negb (String.eqb s "")
  | JArr _ => true
  end.

(** [Array.isArray(v)]. *)
Definition isArray (v : JsVal) : bool :=
  match v with JArr _ => true | _ => false end.

(** A synchronous call either returns or throws. *)
Inductive JsError : Type := TypeError.

Inductive result (A : Type) : Type :=
  | Ok (a : A)
  | Throw (e : JsError).
Arguments Ok {A} a.
Arguments Throw {A} e.

(** [v.length]: reading a property of [undefined] or [null] throws; numbers
    and booleans have no [length] (the read gives [undefined], here [None]). *)
Definition js_length (v : JsVal) : result (option nat) :=
  match v with
  | JUndefined | JNull => Throw TypeError
  | JArr l => Ok (Some (length l))
  | JStr s => Ok (Some (String.length s))
  | JBool _ | JNum _ => Ok None
  end.

(** [v[i]] for a value whose [length] could be read: out of range, and on
    numbers and booleans, the read gives [undefined]. *)
Definition js_get (v : JsVal) (i : nat) : JsVal :=
  match v with
  | JArr l => nth i l JUndefined
  | JStr s =>
      match String.get i s with
      | Some c => JStr (String c EmptyString)
      | None => JUndefined
      end
  | _ => JUndefined
  end.

(** [i < bound] with [i] a number: false when [bound] is [undefined] or
    [NaN], so that a loop guarded by it runs [loop_bound bound] times. *)
Definition loop_bound (bound : option nat) : nat :=
  match bound with Some n => n | None => 0 end.

(** [Math.min(a, b)] with [b] a number: [NaN] ([None]) when [a] is
    [undefined]. *)
Definition math_min (a : option nat) (b : nat) : option nat :=
  match a with Some n => Some (Nat.min n b) | None => None end.

(** [for (let i = start; i < start + count; i++) body(i)] over a state. *)
Fixpoint for_range {St : Type} (start count : nat)
    (body : nat → St → St) (st : St) : St :=
  match count with
  | 0 => st
  | S c => for_range (S start) c body (body start st)
  end.

(** [arr.forEach((x, idx) => cb(x, idx))] over a state, [idx] counting from
    [from]. *)
Fixpoint forEach {A St : Type} (arr : list A) (from : nat)
    (cb : A → nat → St → St) (st : St) : St :=
  match arr with
  | [] => st
  | x :: rest => forEach rest (S from) cb (cb x from st)
  end.

(** ** The pairing engine *)

Definition ONE_TO_MANY : string := "one-to-many".
Definition ZIP : string := "zip".
Definition CARTESIAN : string := "cartesian".

(** [mode === s] for a string constant [s]. *)
Definition strict_eq_str (v : JsVal) (s : string) : bool :=
  match v with JStr t => String.eqb t s | _ => false end.

Record Job : Type := mkJob {
  index : nat;
  prompt : JsVal;
  refs : list JsVal;
  payload : JsVal
}.

(** The argument object of [buildJobs]; a property that is left out reads as
    [JUndefined]. *)
Record Config : Type := mkConfig {
  mode : JsVal;
  sharedRefs : JsVal;
  prompts : JsVal;
  perPromptRefs : JsVal;
  extraPayload : JsVal
}.

(** [toArraySafe(x, fallback)]. *)
Definition toArraySafe (x : JsVal) (fallback : list JsVal) : list JsVal :=
  match x with JArr l => l | _ => fallback end.

(** [jobs.push(j)]. *)
Definition push {A : Type} (arr : list A) (x : A) : list A := arr ++ [x].

(** The state of the cartesian loops: the counter [idx] and [jobs]. *)
Definition CartState : Type := nat * list Job.

(** [jobs.push({ index: idx++, prompt, refs, payload })]. *)
Definition push_next (p : JsVal) (r : list JsVal) (pl : JsVal)
    (st : CartState) : CartState :=
  (S (fst st), push (snd st) (mkJob (fst st) p r pl)).

Definition buildJobs (cfg : Config) : result (list Job) :=
  let cleanedSharedRefs := List.filter truthy (toArraySafe (sharedRefs cfg) []) in
  let cleanedPerPrompt : list (list JsVal) :=
    List.map (λ g, toArraySafe g []) (toArraySafe (perPromptRefs cfg) []) in
  let pl := extraPayload cfg in
  if strict_eq_str (mode cfg) ONE_TO_MANY then
    (* prompts.forEach(...): only an array has a callable forEach *)
    match prompts cfg with
    | JArr ps =>
        Ok (forEach ps 0
              (λ p idx jobs, push jobs (mkJob idx p cleanedSharedRefs pl)) [])
    | _ => Throw TypeError
    end
  else if strict_eq_str (mode cfg) ZIP then
    match js_length (prompts cfg) with
    | Throw e => Throw e
    | Ok plen =>
        let n := math_min plen (length cleanedPerPrompt) in
        Ok (for_range 0 (loop_bound n)
              (λ i jobs,
                 push jobs (mkJob i (js_get (prompts cfg) i)
                                  (nth i cleanedPerPrompt []) pl)) [])
    end
  else
    (* CARTESIAN (groups-as-whole; no implicit empty) *)
    match js_length (prompts cfg) with
    | Throw e => Throw e
    | Ok plen =>
        if 0 <? length cleanedPerPrompt then
          Ok (snd (for_range 0 (loop_bound plen)
                (λ i st,
                   for_range 0 (length cleanedPerPrompt)
                     (λ g st',
                        push_next (js_get (prompts cfg) i)
                                  (nth g cleanedPerPrompt []) pl st') st)
                (0, [])))
        else
          (* Fallback: no per-prompt -> shared per-image Cartesian *)
          Ok (snd (for_range 0 (loop_bound plen)
                (λ i st,
                   for_range 0 (length cleanedSharedRefs)
                     (λ r st',
                        push_next (js_get (prompts cfg) i)
                                  [nth r cleanedSharedRefs JUndefined] pl st') st)
                (0, [])))
    end.

(** ** Definitions used to state the properties *)

(** An array of strings, for examples. *)
Definition strs (l : list string) : JsVal := JArr (JStr <$> l).

(** The two normalised inputs, as [buildJobs] computes them. *)
Definition cleanShared (sh : JsVal) : list JsVal :=
  List.filter truthy (toArraySafe sh []).

Definition cleanPerPrompt (pp : JsVal) : list (list JsVal) :=
  List.map (λ g, toArraySafe g []) (toArraySafe pp []).

(** The job list of a full cross product of [n] prompts with [m] options,
    prompt outer, option inner, numbered in that order. *)
Definition cartesian_jobs (n m : nat) (pf : nat → JsVal)
    (rf : nat → list JsVal) (pl : JsVal) : list Job :=
  (λ k, mkJob k (pf (k / m)) (rf (k mod m)) pl) <$> seq 0 (n * m).

(** ** Handles, the simulated submit and run, and the collect step *)

Inductive Status : Type := queued | running | succeeded | failed.

(** The optional properties read [None] when absent. *)
Record Handle : Type := mkHandle {
  job_id : string;
  status : Status;
  job : Job;
  submit_ts : Z;
  finish_ts : option Z;
  result_placeholder : option string;
  error : option string
}.

(** [uid(prefix)]: the prefix, an underscore and a random base-36 tail,
    [rnd], drawn by the environment. *)
Definition uid (prefix rnd : string) : string := prefix +:+ "_" +:+ rnd.

(** [simulateSubmit(job)], with the random tail and the clock reading. *)
Definition simulateSubmit (j : Job) (rnd : string) (now : Z) : Handle :=
  mkHandle (uid "job" rnd) queued j now None None None.

(** The default values of the optional parameters [latencyMsRange] and
    [failRate] of [simulateRunJob]. *)
Definition default_latencyMsRange : Q * Q := (300, 900)%Q.

(** [a < b] on numbers. *)
Definition Qlt_bool (a b : Q) : bool := negb (Qle_bool b a).

(** [simulateRunJob(handle, [min, max], failRate)]: the delay handed to
    [setTimeout], computed from the first random draw, and the timer's
    callback, which takes the second draw and the clock reading and gives
    the value the promise is resolved with.  Each branch builds a new object
    by spreading [handle] and overriding three properties.  Numbers are
    exact rationals here. *)
Definition simulateRunJob (handle : Handle) (latencyMsRange : Q * Q)
    (failRate : Q) (rnd_delay : Q) : Z * (Q → Z → Handle) :=
  let '(min, max) := latencyMsRange in
  let ms := Qfloor (min + rnd_delay * (max - min)) in
  (ms,
   λ rnd_fail now,
     let failed_draw := Qlt_bool rnd_fail failRate in
     if failed_draw then
       mkHandle (job_id handle) failed (job handle) (submit_ts handle)
         (Some now) (result_placeholder handle) (Some "Simulated error")
     else
       mkHandle (job_id handle) succeeded (job handle) (submit_ts handle)
         (Some now) (Some ("OK:" +:+ pretty (index (job handle))))
         (error handle)).

(** Objects live in a store and are passed by reference.  A run of
    [simulateRunJob] on the handle at [l], taken up to the resolution of its
    promise: the callback reads the handle and allocates the object it
    resolves with; the source has no assignment to a property of [handle]. *)
Definition simulateRunJob_at (σ : gmap nat Handle) (l : nat)
    (latencyMsRange : Q * Q) (failRate rnd_delay rnd_fail : Q) (now : Z)
    : option (gmap nat Handle * nat) :=
  match σ !! l with
  | Some handle =>
      let resolved :=
        (simulateRunJob handle latencyMsRange failRate rnd_delay).2 rnd_fail now in
      let l' := fresh (dom σ) in
      Some (<[l' := resolved]> σ, l')
  | None => None
  end.

(** [results.forEach((r) => { byIndex[r.job.index] = r; })] from the empty
    object. *)
Definition byIndex_of (results : list Handle) : gmap nat Handle :=
  forEach results 0 (λ r _ byIndex, <[index (job r) := r]> byIndex) ∅.

(** The object literal on the right of [||] in [onCollect]. *)
Definition pending_handle (j : Job) (now : Z) : Handle :=
  mkHandle ("pending_" +:+ pretty (index j)) queued j now None None None.

(** [onCollect]: the list [aligned] that becomes the new [results], from
    the [jobs] and [results] the closure sees; [clock pos] is what
    [Date.now()] returns while the callback of [jobs.map] runs at position
    [pos].  A handle is an object, hence truthy, so [||] takes its right
    side exactly when the lookup finds nothing. *)
Definition onCollect (jobs : list Job) (results : list Handle)
    (clock : nat → Z) : list Handle :=
  let byIndex := byIndex_of results in
  imap (λ pos j,
          match byIndex !! index j with
          | Some r => r
          | None => pending_handle j (clock pos)
          end) jobs.

(** ** The promise pool, [runWithConcurrency]

    JavaScript runs one callback at a time.  The pool is therefore a
    transition system: its state holds the variables of the closure
    ([q], [res], [inFlight], [i]), the worker promises that are still
    pending, and the queue of promise reactions; an event is the settlement
    of a pending worker promise (chosen, with its outcome, by the
    environment) or the run of the reaction at the head of the queue.
    Every interleaving of settlements and reactions is a schedule. *)

Module Pool.

(** How a worker promise settles. *)
Inductive Outcome (R : Type) : Type :=
  | Fulfilled (r : R)
  | Rejected.
Arguments Fulfilled {R} r.
Arguments Rejected {R}.

(** The reactions of the chain [worker(item).then(cb).finally(cb')]: the
    [then] reaction is queued when the worker promise settles, the [finally]
    reaction when the promise returned by [then] does. *)
Inductive Reaction (R : Type) : Type :=
  | ThenReaction (o : Outcome R)
  | FinallyReaction.
Arguments ThenReaction {R} o.
Arguments FinallyReaction {R}.

Record PoolState (T R : Type) : Type := mkPool {
  q : list T;                      (* items.slice() *)
  res : list R;
  inFlight : Z;
  i : nat;
  resolved : bool;                 (* resolve(res) has been called *)
  calls : list T;                  (* the arguments of the worker calls so far *)
  running : list T;                (* calls whose promise is still pending *)
  microtasks : list (Reaction R);  (* queued reactions, oldest first *)
  progress : list R                (* the arguments of the onProgress calls *)
}.
Arguments mkPool {T R}.
Arguments q {T R}.
Arguments res {T R}.
Arguments inFlight {T R}.
Arguments i {T R}.
Arguments resolved {T R}.
Arguments calls {T R}.
Arguments running {T R}.
Arguments microtasks {T R}.
Arguments progress {T R}.

Inductive Event (R : Type) : Type :=
  | Settle (n : nat) (o : Outcome R)   (* the n-th pending worker promise settles *)
  | Tick.                              (* the oldest queued reaction runs *)
Arguments Settle {R} n o.
Arguments Tick {R}.

(** [while (inFlight < k && i < q.length) { const item = q[i++]; inFlight++;
    worker(item).then(..).finally(..); }], at most [fuel] rounds. *)
Fixpoint pump_loop {T R : Type} (k : Z) (fuel : nat) (st : PoolState T R)
    : PoolState T R :=
  match fuel with
  | 0 => st
  | S fuel' =>
      if (inFlight st <? k)%Z && (i st <? length (q st)) then
        match q st !! i st with
        | Some item =>
            pump_loop k fuel'
              (mkPool (q st) (res st) (inFlight st + 1)%Z (S (i st))
                 (resolved st) (calls st ++ [item]) (running st ++ [item])
                 (microtasks st) (progress st))
        | None => st
        end
      else st
  end.

(** [pump()]: every round advances [i], so [q.length - i] rounds suffice
    ([pump_saturates] below). *)
Definition pump {T R : Type} (k : Z) (st : PoolState T R) : PoolState T R :=
  pump_loop k (length (q st) - i st) st.

(** The default value of the parameter [k]. *)
Definition default_k : Z := 3.

(** [runWithConcurrency(items, worker, k, onProgress)] up to the return of
    the promise: the executor has run [pump()] once. *)
Definition runWithConcurrency {T R : Type} (items : list T) (k : Z)
    : PoolState T R :=
  pump k (mkPool items [] 0 0 false [] [] [] []).

(** One event.  [None]: the event is not enabled in this state.
    [onProgress] tells whether the optional callback was passed. *)
Definition step {T R : Type} (items : list T) (k : Z) (onProgress : bool)
    (ev : Event R) (st : PoolState T R) : option (PoolState T R) :=
  match ev with
  | Settle n o =>
      match running st !! n with
      | Some _ =>
          Some (mkPool (q st) (res st) (inFlight st) (i st) (resolved st)
                  (calls st) (delete n (running st))
                  (microtasks st ++ [ThenReaction o]) (progress st))
      | None => None
      end
  | Tick =>
      match microtasks st with
      | [] => None
      | ThenReaction (Fulfilled r) :: rest =>
          (* (r) => { res.push(r); onProgress?.(r); } *)
          Some (mkPool (q st) (res st ++ [r]) (inFlight st) (i st)
                  (resolved st) (calls st) (running st)
                  (rest ++ [FinallyReaction])
                  (if onProgress then progress st ++ [r] else progress st))
      | ThenReaction Rejected :: rest =>
          (* no rejection handler: the rejection is passed on *)
          Some (mkPool (q st) (res st) (inFlight st) (i st) (resolved st)
                  (calls st) (running st) (rest ++ [FinallyReaction])
                  (progress st))
      | FinallyReaction :: rest =>
          (* () => { inFlight--; res.length === items.length ? resolve(res) : pump(); } *)
          let st1 :=
            mkPool (q st) (res st) (inFlight st - 1)%Z (i st) (resolved st)
              (calls st) (running st) rest (progress st) in
          if length (res st1) =? length items then
            Some (mkPool (q st1) (res st1) (inFlight st1) (i st1) true
                    (calls st1) (running st1) (microtasks st1) (progress st1))
          else Some (pump k st1)
      end
  end.

(** A schedule, event after event. *)
Fixpoint run {T R : Type} (items : list T) (k : Z) (onProgress : bool)
    (evs : list (Event R)) (st : PoolState T R) : option (PoolState T R) :=
  match evs with
  | [] => Some st
  | ev :: rest =>
      match step items k onProgress ev st with
      | Some st' => run items k onProgress rest st'
      | None => None
      end
  end.

(** *** Definitions used to state the properties of the pool *)

(** The event is not the rejection of a worker promise. *)
Definition fulfils {R : Type} (ev : Event R) : Prop :=
  match ev with Settle _ Rejected => False | _ => True end.

(** The values the worker promises were fulfilled with, in the order of
    their settlement. *)
Definition settled_values {R : Type} (evs : list (Event R)) : list R :=
  omap (λ ev, match ev with Settle _ (Fulfilled r) => Some r | _ => None end) evs.

(** The values carried by the queued [then] reactions. *)
Definition queued_values {R : Type} (ms : list (Reaction R)) : list R :=
  omap (λ m, match m with ThenReaction (Fulfilled r) => Some r | _ => None end) ms.

(** What remains to be done: three events per item not yet started and per
    pending call, two per queued [then], one per queued [finally]. *)
Definition weight {R : Type} (m : Reaction R) : nat :=
  match m with ThenReaction _ => 2 | FinallyReaction => 1 end.

Definition remaining {T R : Type} (st : PoolState T R) : nat :=
  3 * (length (q st) - i st) + 3 * length (running st)
  + sum_list_with weight (microtasks st).

(** The invariant of the pool while no worker promise is rejected. *)
Record Inv {T R : Type} (items : list T) (k : Z) (st : PoolState T R)
    : Prop := mkInv {
  inv_q : q st = items;
  inv_i : i st ≤ length items;
  inv_calls : calls st = take (i st) items;
  inv_inFlight :
    inFlight st = Z.of_nat (length (running st) + length (microtasks st));
  inv_cap : (inFlight st ≤ k)%Z;
  inv_noreject : Forall (λ m, m ≠ ThenReaction Rejected) (microtasks st);
  inv_count :
    length (res st) + length (running st)
    + length (queued_values (microtasks st)) = i st;
  inv_resolve :
    resolved st = true ∨ length (res st) < length items
    ∨ FinallyReaction ∈ microtasks st;
  inv_full : resolved st = true → length (res st) = length items
}.

(** The exit condition of the loop of [pump]. *)
Definition saturated {T R : Type} (k : Z) (st : PoolState T R) : Prop :=
  i st = length (q st) ∨ (k ≤ inFlight st)%Z.

End Pool.

(** ** The helpers of the component: hashing, clamping, group editing,
       the result accumulator *)

From Stdlib Require Import Lqa.

(** [ToInt32]: the signed 32-bit reading of an integral number, as applied
    by [<<] and [|]. *)
Definition to_int32 (z : Z) : Z := ((z + 2 ^ 31) mod 2 ^ 32 - 2 ^ 31)%Z.

(** [str.charCodeAt(i)] for the code unit [c]. *)
Definition charCode (c : Ascii.ascii) : Z := Z.of_N (Ascii.N_of_ascii c).

(** The body of the loop of [hashCode]:
    [h = (h << 5) - h + str.charCodeAt(i); h |= 0;]. *)
Definition hashCode_step (h : Z) (c : Ascii.ascii) : Z :=
  to_int32 (to_int32 (Z.shiftl (to_int32 h) 5) - h + charCode c).

Fixpoint hashCode_loop (str : string) (h : Z) : Z :=
  match str with
  | EmptyString => h
  | String c rest => hashCode_loop rest (hashCode_step h c)
  end.

Definition hashCode (str : string) : Z := hashCode_loop str 0.

(** The two hues of [gradientStyleForRef(refId)]:
    [Math.abs(hashCode(refId)) % 360] and [(hue + 40) % 360]. *)
Definition gradient_hues (refId : string) : Z * Z :=
  let hue := Z.rem (Z.abs (hashCode refId)) 360 in
  (hue, Z.rem (hue + 40) 360).

(** The [background] of [gradientStyleForRef(refId)]. *)
Definition gradientStyleForRef (refId : string) : string :=
  let '(hue, hue2) := gradient_hues refId in
  "linear-gradient(135deg, hsl(" +:+ pretty hue +:+ ",70%,82%), hsl("
    +:+ pretty hue2 +:+ ",70%,72%))".




(** [makePlaceholders(groupIdx, count)], for an integral [count]. *)
Definition makePlaceholders (groupIdx : nat) (count : Z) : list string :=
  (λ i, "P" +:+ pretty (groupIdx + 1) +:+ "_" +:+ pretty (i + 1))
    <$> seq 0 (Z.to_nat (Z.max 0 count)).

(** [while (next.length < n) next.push([]);], at most [fuel] rounds. *)
Fixpoint pad_loop (fuel n : nat) (next : list (list string))
    : list (list string) :=
  match fuel with
  | 0 => next
  | S fuel' =>
      if length next <? n then pad_loop fuel' n (push next []) else next
  end.

(** The updater of the effect on [prompts.length]:
    [const next = prev.slice(0, n); while (..) next.push([]); return next;].
    Every round lengthens [next], so [n - next.length] rounds suffice. *)
Definition syncGroups (prev : list (list string)) (n : nat)
    : list (list string) :=
  let next := take n prev in
  pad_loop (n - length next) n next.

(** The updater of [syncGroupsToPrompts(fill)]. *)
Definition syncGroupsToPrompts (fill : bool) (prev : list (list string))
    (n : nat) (globalGroupCount : Z) : list (list string) :=
  let next := syncGroups prev n in
  if fill then
    imap (λ i g, if length g =? 0 then makePlaceholders i globalGroupCount
                 else g) next
  else next.

(** The component's string lists as the values [buildJobs] receives. *)
Definition groups_val (groups : list (list string)) : JsVal :=
  JArr ((λ g, strs g) <$> groups).

(** [onBuildJobs]: the job list handed to [setJobs]. *)
Definition onBuildJobs (mode : string) (sharedRefs prompts : list string)
    (perPromptRefs : list (list string)) (extraPayload : JsVal)
    : result (list Job) :=
  buildJobs (mkConfig (JStr mode) (strs sharedRefs) (strs prompts)
               (groups_val perPromptRefs) extraPayload).


(** The updater the worker of [onSubmit] hands to [setResults]:
    replace the entries with the id of [finished], or append it. *)
Definition upsert (finished : Handle) (prev : list Handle) : list Handle :=
  match List.find (λ x, String.eqb (job_id x) (job_id finished)) prev with
  | Some _ =>
      List.map (λ x, if String.eqb (job_id x) (job_id finished)
                     then finished else x) prev
  | None => prev ++ [finished]
  end.






(** *** Definitions used to state the properties of the helpers *)

(** The polynomial [s[0]·31^(n-1) + ... + s[n-1]] over the integers, from
    the accumulator [acc]. *)
Fixpoint poly31 (str : string) (acc : Z) : Z :=
  match str with
  | EmptyString => acc
  | String c rest => poly31 rest (31 * acc + charCode c)
  end.

(** A string of decimal digits. *)
Definition is_digit (c : Ascii.ascii) : bool :=
  (48 <=? Ascii.nat_of_ascii c) && (Ascii.nat_of_ascii c <=? 57).

Fixpoint all_digits (s : string) : bool :=
  match s with
  | EmptyString => true
  | String c rest => is_digit c && all_digits rest
  end.

(** The number of text-only jobs, counted as the unit tests count them:
    [out.filter((j) => j.refs.length === 0).length]. *)
Definition count_text_only (jobs : list Job) : nat :=
  length (List.filter (λ j, length (refs j) =? 0) jobs).

(** ** The CSV export *)

(** The code units 34, 10, 44 and 32. *)
Definition dquote : Ascii.ascii := Ascii.ascii_of_nat 34.
Definition newline : Ascii.ascii := Ascii.ascii_of_nat 10.
Definition comma : Ascii.ascii := Ascii.ascii_of_nat 44.
Definition space : Ascii.ascii := Ascii.ascii_of_nat 32.

(** The one-character string. *)
Definition str1 (c : Ascii.ascii) : string := String c EmptyString.

(** The [replace] of the cell template: every double quote is doubled. *)
Fixpoint escape_quotes (x : string) : string :=
  match x with
  | EmptyString => EmptyString
  | String c rest =>
      if Ascii.eqb c dquote then String c (String c (escape_quotes rest))
      else String c (escape_quotes rest)
  end.

(** The cell of the template literal: a quote, the escaped text, a quote. *)
Definition csv_cell (x : string) : string :=
  str1 dquote +:+ escape_quotes x +:+ str1 dquote.

(** The rows joined: cells by a comma, rows by a line feed. *)
Definition csv_row (r : list string) : string :=
  String.concat (str1 comma) (csv_cell <$> r).

Definition csv_text (rows : list (list string)) : string :=
  String.concat (str1 newline) (csv_row <$> rows).

(** The [replace] applied to the prompt: every line feed becomes a
    space. *)
Fixpoint replace_newlines (s : string) : string :=
  match s with
  | EmptyString => EmptyString
  | String c rest =>
      String (if Ascii.eqb c newline then space else c) (replace_newlines rest)
  end.

Definition status_text (s : Status) : string :=
  match s with
  | queued => "queued"
  | running => "running"
  | succeeded => "succeeded"
  | failed => "failed"
  end.

Definition csv_header : list string :=
  ["index"; "job_id"; "status"; "prompt"; "refs_count"; "submit_ts";
   "finish_ts"; "error"; "result"].

(** What [exportCSV] can throw: the TypeError of [.replace] on a prompt
    that is truthy and not a string, and the RangeError of [toISOString]
    on a time value out of range. *)
Inductive ExportError : Type := PromptNotString | InvalidTime.

Inductive exported (A : Type) : Type :=
  | Exported (a : A)
  | ExportThrows (e : ExportError).
Arguments Exported {A} a.
Arguments ExportThrows {A} e.

Definition exported_bind {A B : Type} (x : exported A) (f : A → exported B)
    : exported B :=
  match x with
  | Exported a => f a
  | ExportThrows e => ExportThrows e
  end.

(** [arr.forEach] with a callback that can throw: the rows pushed, or the
    first error. *)
Fixpoint exported_rows {A B : Type} (f : A → exported B) (l : list A)
    : exported (list B) :=
  match l with
  | [] => Exported []
  | x :: rest =>
      exported_bind (f x) (λ y,
        exported_bind (exported_rows f rest) (λ ys, Exported (y :: ys)))
  end.

Section ExportCsv.
(** [new Date(ts).toISOString()]; [None] where it throws a RangeError. *)
Variable toISOString : Z → option string.

(** The prompt cell: the empty string for a falsy prompt, else the prompt
    with its line feeds replaced, which needs a string. *)
Definition prompt_cell (p : JsVal) : exported string :=
  if truthy p then
    match p with
    | JStr s => Exported (replace_newlines s)
    | _ => ExportThrows PromptNotString
    end
  else Exported "".

(** A time cell: empty for a falsy (zero or absent) time value, else its
    ISO text; an absent property is [None]. *)
Definition time_cell (ts : option Z) : exported string :=
  match ts with
  | None => Exported ""
  | Some t =>
      if (t =? 0)%Z then Exported ""
      else match toISOString t with
           | Some s => Exported s
           | None => ExportThrows InvalidTime
           end
  end.

(** An optional string, or the empty string. *)
Definition or_empty (x : option string) : string :=
  match x with Some s => s | None => "" end.

(** The row pushed for the handle [it]; the cells are evaluated in order. *)
Definition export_row (it : Handle) : exported (list string) :=
  exported_bind (prompt_cell (prompt (job it))) (λ prompt_text,
  exported_bind (time_cell (Some (submit_ts it))) (λ submit_text,
  exported_bind (time_cell (finish_ts it)) (λ finish_text,
  Exported
    [pretty (index (job it)); job_id it; status_text (status it); prompt_text;
     pretty (length (refs (job it))); submit_text; finish_text;
     or_empty (error it); or_empty (result_placeholder it)]))).

(** [exportCSV]: the text put into the blob, from the [results] and
    [handles] of the component. *)
Definition exportCSV (results handles : list Handle) : exported string :=
  let list := if 0 <? length results then results else handles in
  exported_bind (exported_rows export_row list) (λ rows,
    Exported (csv_text (csv_header :: rows))).

End ExportCsv.

(** *** Definitions used to state the properties of the export *)

(** A reader of comma-separated text in which every cell is quoted. *)
Inductive CsvState : Type := CellStart | InQuoted | QuoteSeen.

Fixpoint parse_csv_from (s : string) (state : CsvState) (cell : string)
    (row : list string) (rows : list (list string))
    : option (list (list string)) :=
  match s with
  | EmptyString =>
      match state with
      | QuoteSeen => Some (rows ++ [row ++ [cell]])
      | _ => None
      end
  | String c rest =>
      match state with
      | CellStart =>
          if Ascii.eqb c dquote then parse_csv_from rest InQuoted "" row rows
          else None
      | InQuoted =>
          if Ascii.eqb c dquote then parse_csv_from rest QuoteSeen cell row rows
          else parse_csv_from rest InQuoted (cell +:+ str1 c) row rows
      | QuoteSeen =>
          if Ascii.eqb c dquote
          then parse_csv_from rest InQuoted (cell +:+ str1 c) row rows
          else if Ascii.eqb c comma
          then parse_csv_from rest CellStart "" (row ++ [cell]) rows
          else if Ascii.eqb c newline
          then parse_csv_from rest CellStart "" [] (rows ++ [row ++ [cell]])
          else None
      end
  end.

Definition parse_csv (s : string) : option (list (list string)) :=
  match s with
  | EmptyString => Some []
  | _ => parse_csv_from s CellStart "" [] []
  end.

(** The string contains the character. *)
Fixpoint has_char (c : Ascii.ascii) (s : string) : bool :=
  match s with
  | EmptyString => false
  | String d rest => Ascii.eqb d c || has_char c rest
  end.

(** The nine cells of a handle whose prompt is the string [p], with the
    time cells read through [toISOString] where the time value is not
    zero. *)
Definition time_text (toISOString : Z → option string) (ts : option Z)
    : string :=
  match ts with
  | None => ""
  | Some t => if (t =? 0)%Z then "" else or_empty (toISOString t)
  end.

Definition export_cells (toISOString : Z → option string) (it : Handle)
    : list string :=
  [pretty (index (job it)); job_id it; status_text (status it);
   match prompt (job it) with JStr p => replace_newlines p | _ => "" end;
   pretty (length (refs (job it)));
   time_text toISOString (Some (submit_ts it));
   time_text toISOString (finish_ts it);
   or_empty (error it); or_empty (result_placeholder it)].

(** The handle can be exported: its prompt is a string and its time values
    are in the range of [toISOString]. *)
Definition exportable (toISOString : Z → option string) (it : Handle)
    : Prop :=
  (∃ p, prompt (job it) = JStr p)
  ∧ is_Some (toISOString (submit_ts it))
  ∧ (∀ t, finish_ts it = Some t → is_Some (toISOString t)).

(** ** The list editor *)

(** The white space and line terminators [trim] removes, among the code
    units a string holds here: 9 to 13, 32 and 160. *)
Definition is_js_space (c : Ascii.ascii) : bool :=
  let n := Ascii.nat_of_ascii c in
  ((9 <=? n) && (n <=? 13)) || (n =? 32) || (n =? 160).

(** [s.trimStart()]. *)
Fixpoint trim_start (s : string) : string :=
  match s with
  | EmptyString => EmptyString
  | String c rest => if is_js_space c then trim_start rest else s
  end.

(** [s.trimEnd()]. *)
Fixpoint trim_end (s : string) : string :=
  match s with
  | EmptyString => EmptyString
  | String c rest =>
      match trim_end rest with
      | EmptyString => if is_js_space c then EmptyString else str1 c
      | rest' => String c rest'
      end
  end.

(** [s.trim()]. *)
Definition trim (s : string) : string := trim_end (trim_start s).

(** [text.split(sep)] for the one-character separator [sep]; [cur] is the
    piece being read. *)
Fixpoint split_from (sep : Ascii.ascii) (text cur : string) : list string :=
  match text with
  | EmptyString => [cur]
  | String c rest =>
      if Ascii.eqb c sep then cur :: split_from sep rest ""
      else split_from sep rest (cur +:+ str1 c)
  end.

Definition split (sep : Ascii.ascii) (text : string) : list string :=
  split_from sep text "".

(** A non-empty string is truthy. *)
Definition nonempty (s : string) : bool := negb (String.eqb s "").

(** The text the editor shows for [items]: the items joined by line
    feeds. *)
Definition editor_text (items : list string) : string :=
  String.concat (str1 newline) items.

(** The list the editor hands to [setItems] when it loses the focus: the
    lines of the text, trimmed, the empty ones dropped. *)
Definition editor_items (text : string) : list string :=
  List.filter nonempty (List.map trim (split newline text)).

(** *** Definitions used to state the properties of the editor *)

(** A clean item: not empty, on one line, without white space at either
    end. *)
Definition clean_item (s : string) : Prop :=
  s ≠ "" ∧ has_char newline s = false ∧ trim s = s.

(** *** Definitions used to state further properties of the pool *)

Module PoolSpec.
Import Pool.

(** The number of worker promises that were rejected. *)
Definition rejections {R : Type} (evs : list (Event R)) : nat :=
  length (List.filter
            (λ ev, match ev with Settle _ Rejected => true | _ => false end)
            evs).

(** The invariant of the pool under every schedule, rejections included;
    [rej] is the number of rejections so far. *)
Record WInv {T R : Type} (items : list T) (k : Z) (rej : nat)
    (st : PoolState T R) : Prop := mkWInv {
  winv_q : q st = items;
  winv_i : i st ≤ length items;
  winv_calls : calls st = take (i st) items;
  winv_inFlight :
    inFlight st = Z.of_nat (length (running st) + length (microtasks st));
  winv_cap : (inFlight st ≤ k)%Z;
  winv_count :
    length (res st) + length (running st)
    + length (queued_values (microtasks st)) + rej = i st;
  winv_full : resolved st = true → length (res st) = length items;
  winv_sat : saturated k st
}.

(** The state in which the first [c] items have been handed to the worker
    and nothing has settled yet. *)
Definition started {T R : Type} (items : list T) (c : nat) : PoolState T R :=
  mkPool items [] (Z.of_nat c) c false (take c items) (take c items) [] [].

End PoolSpec.

(** The unit tests of [runBuildJobsTests], replayed on the embedding. *)

Example test_one_to_many :
  buildJobs (mkConfig (JStr ONE_TO_MANY) (strs ["S1"; "S2"])
               (strs ["p1"; "p2"; "p3"]) JUndefined JUndefined)
  = Ok [mkJob 0 (JStr "p1") [JStr "S1"; JStr "S2"] JUndefined;
        mkJob 1 (JStr "p2") [JStr "S1"; JStr "S2"] JUndefined;
        mkJob 2 (JStr "p3") [JStr "S1"; JStr "S2"] JUndefined].
Proof. reflexivity. Qed.

Example test_zip_undefined :
  buildJobs (mkConfig (JStr ZIP) JUndefined (strs ["p1"; "p2"; "p3"])
               JUndefined JUndefined) = Ok [].
Proof. reflexivity. Qed.

Example test_zip_mismatch :
  buildJobs (mkConfig (JStr ZIP) JUndefined (strs ["p1"; "p2"; "p3"; "p4"])
               (JArr [strs ["r1"]; strs ["r2"]]) JUndefined)
  = Ok [mkJob 0 (JStr "p1") [JStr "r1"] JUndefined;
        mkJob 1 (JStr "p2") [JStr "r2"] JUndefined].
Proof. reflexivity. Qed.

Example test_cartesian_fallback :
  (λ r, match r with Ok js => length js | Throw _ => 0 end)
    (buildJobs (mkConfig (JStr CARTESIAN) (strs ["S1"; "S2"])
                  (strs ["p1"; "p2"; "p3"]) JUndefined JUndefined)) = 6.
Proof. reflexivity. Qed.

Example test_cartesian_groups :
  (λ r, match r with
        | Ok js => (length js, length (List.filter (λ j, length (refs j) =? 0) js))
        | Throw _ => (0, 0)
        end)
    (buildJobs (mkConfig (JStr CARTESIAN) JUndefined (strs ["p1"; "p2"; "p3"])
                  (JArr [JArr []; strs ["B"; "C"]; strs ["D"]]) JUndefined))
  = (9, 3).
Proof. reflexivity. Qed.

(** ** Loop lemmas *)

Section Loops.
Context {St : Type}.

Lemma for_range_snoc (body : nat → St → St) (count start : nat) (st : St) :
  for_range start (S count) body st
  = body (start + count) (for_range start count body st).
Proof.
  revert start st. induction count as [|c IH]; intros start st.
  - simpl. by rewrite Nat.add_0_r.
  - change (for_range start (S (S c)) body st)
      with (for_range (S start) (S c) body (body start st)).
    rewrite IH. simpl. by rewrite Nat.add_succ_r.
Qed.
End Loops.

(** A loop that only pushes builds the image of the index range. *)
Lemma for_range_push {A : Type} (f : nat → A) (count start : nat) (acc : list A) :
  for_range start count (λ i arr, push arr (f i)) acc
  = acc ++ (f <$> seq start count).
Proof.
  revert start acc. induction count as [|c IH]; intros start acc; simpl.
  - by rewrite app_nil_r.
  - rewrite IH. unfold push. by rewrite <- app_assoc.
Qed.

Lemma forEach_push {A B : Type} (f : nat → A → B) (arr : list A) (from : nat)
    (acc : list B) :
  forEach arr from (λ x idx out, push out (f idx x)) acc
  = acc ++ imap (λ k x, f (from + k) x) arr.
Proof.
  revert from acc. induction arr as [|x rest IH]; intros from acc; simpl.
  - by rewrite app_nil_r.
  - rewrite IH. unfold push. rewrite <- app_assoc. simpl.
    rewrite Nat.add_0_r. do 2 f_equal.
    apply imap_ext. intros k y _. simpl. f_equal. lia.
Qed.


Lemma inner_loop_push_next (p : JsVal) (rf : nat → list JsVal) (pl : JsVal)
    (m : nat) (st : CartState) :
  for_range 0 m (λ g st', push_next p (rf g) pl st') st
  = (fst st + m,
     snd st ++ ((λ g, mkJob (fst st + g) p (rf g) pl) <$> seq 0 m)).
Proof.
  induction m as [|m IH].
  - simpl. destruct st. by rewrite Nat.add_0_r, app_nil_r.
  - rewrite for_range_snoc, IH, seq_S, fmap_app, app_assoc.
    unfold push_next, push. cbn [fst snd fmap list_fmap Nat.add].
    f_equal. lia.
Qed.

Lemma cartesian_loops (n m : nat) (pf : nat → JsVal) (rf : nat → list JsVal)
    (pl : JsVal) :
  for_range 0 n
    (λ i st, for_range 0 m (λ g st', push_next (pf i) (rf g) pl st') st)
    (0, [])
  = (n * m, cartesian_jobs n m pf rf pl).
Proof.
  induction n as [|n IH]; [done|].
  rewrite for_range_snoc, IH, inner_loop_push_next. simpl fst. simpl snd.
  f_equal; [lia|].
  unfold cartesian_jobs.
  replace (S n * m) with (n * m + m) by lia.
  rewrite seq_app, fmap_app. f_equal. simpl.
  apply list_eq. intros g. rewrite !list_lookup_fmap.
  destruct (decide (g < m)) as [Hg|Hg].
  - rewrite !lookup_seq_lt by done. simpl.
    destruct m as [|m']; [lia|].
    f_equal. f_equal.
    + f_equal. rewrite Nat.add_comm, Nat.div_add by lia.
      rewrite Nat.div_small by lia. done.
    + f_equal. rewrite Nat.add_comm, Nat.Div0.mod_add.
      by rewrite Nat.mod_small by lia.
  - rewrite !lookup_seq_ge by lia. done.
Qed.

Lemma cartesian_jobs_length n m pf rf pl :
  length (cartesian_jobs n m pf rf pl) = n * m.
Proof. unfold cartesian_jobs. by rewrite length_fmap, length_seq. Qed.

Lemma cartesian_jobs_lookup n m pf rf pl i g :
  i < n → g < m →
  cartesian_jobs n m pf rf pl !! (i * m + g)
  = Some (mkJob (i * m + g) (pf i) (rf g) pl).
Proof.
  intros Hi Hg. unfold cartesian_jobs.
  rewrite list_lookup_fmap, lookup_seq_lt by nia. simpl.
  rewrite Nat.div_add_l by lia. rewrite Nat.div_small by lia.
  rewrite Nat.add_comm, Nat.Div0.mod_add, Nat.mod_small by lia.
  by rewrite Nat.add_0_r, Nat.add_comm.
Qed.

Lemma cartesian_jobs_index n m pf rf pl :
  index <$> cartesian_jobs n m pf rf pl = seq 0 (n * m).
Proof.
  unfold cartesian_jobs. rewrite <- list_fmap_compose.
  rewrite <- (list_fmap_id (seq 0 (n * m))) at 2.
  by apply list_fmap_ext.
Qed.

(** ** What [buildJobs] returns, mode by mode *)


Lemma buildJobs_one_to_many sh ps pp pl :
  buildJobs (mkConfig (JStr ONE_TO_MANY) sh (JArr ps) pp pl)
  = Ok (imap (λ i p, mkJob i p (cleanShared sh) pl) ps).
Proof.
  unfold buildJobs. cbn [mode prompts sharedRefs extraPayload].
  change (strict_eq_str (JStr ONE_TO_MANY) ONE_TO_MANY) with true.
  cbv iota. f_equal.
  exact (forEach_push (λ i p, mkJob i p (cleanShared sh) pl) ps 0 []).
Qed.

Lemma buildJobs_zip sh P pp pl plen :
  js_length P = Ok plen →
  buildJobs (mkConfig (JStr ZIP) sh P pp pl)
  = Ok ((λ i, mkJob i (js_get P i) (nth i (cleanPerPrompt pp) []) pl)
          <$> seq 0 (loop_bound (math_min plen (length (cleanPerPrompt pp))))).
Proof.
  intros Hlen. unfold buildJobs.
  cbn [mode prompts sharedRefs perPromptRefs extraPayload].
  change (strict_eq_str (JStr ZIP) ONE_TO_MANY) with false.
  change (strict_eq_str (JStr ZIP) ZIP) with true.
  cbv iota. rewrite Hlen. f_equal.
  exact (for_range_push
           (λ i, mkJob i (js_get P i) (nth i (cleanPerPrompt pp) []) pl) _ 0 []).
Qed.

Lemma buildJobs_cartesian m sh P pp pl plen :
  strict_eq_str m ONE_TO_MANY = false →
  strict_eq_str m ZIP = false →
  js_length P = Ok plen →
  buildJobs (mkConfig m sh P pp pl)
  = Ok (if 0 <? length (cleanPerPrompt pp)
        then cartesian_jobs (loop_bound plen) (length (cleanPerPrompt pp))
               (js_get P) (λ g, nth g (cleanPerPrompt pp) []) pl
        else cartesian_jobs (loop_bound plen) (length (cleanShared sh))
               (js_get P) (λ r, [nth r (cleanShared sh) JUndefined]) pl).
Proof.
  intros H1 H2 Hlen. unfold buildJobs.
  cbn [mode prompts sharedRefs perPromptRefs extraPayload].
  rewrite H1, H2, Hlen.
  fold (cleanPerPrompt pp). fold (cleanShared sh).
  destruct (0 <? length (cleanPerPrompt pp)); f_equal.
  - by rewrite (cartesian_loops _ _ (js_get P)
                  (λ g, nth g (cleanPerPrompt pp) [])).
  - by rewrite (cartesian_loops _ _ (js_get P)
                  (λ r, [nth r (cleanShared sh) JUndefined])).
Qed.

(** Whatever the mode, a built job list is numbered [0 .. N-1] in order. *)
Lemma buildJobs_indices cfg js :
  buildJobs cfg = Ok js → index <$> js = seq 0 (length js).
Proof.
  destruct cfg as [m sh P pp pl].
  destruct (strict_eq_str m ONE_TO_MANY) eqn:H1.
  { destruct m as [| | | |t|]; try discriminate H1.
    apply String.eqb_eq in H1 as ->.
    destruct P as [| | | | |ps]; try discriminate.
    rewrite buildJobs_one_to_many. intros [= <-].
    rewrite length_imap. apply list_eq. intros k.
    rewrite list_lookup_fmap, list_lookup_imap.
    destruct (ps !! k) as [p|] eqn:Hk; simpl.
    - by rewrite lookup_seq_lt by (by eapply lookup_lt_Some).
    - by rewrite lookup_seq_ge by (by apply lookup_ge_None). }
  destruct (js_length P) as [plen|e] eqn:Hlen.
  2:{ unfold buildJobs. cbn [mode prompts]. rewrite H1, Hlen.
      by destruct (strict_eq_str m ZIP). }
  destruct (strict_eq_str m ZIP) eqn:H2.
  { destruct m as [| | | |t|]; try discriminate H2.
    apply String.eqb_eq in H2 as ->.
    rewrite (buildJobs_zip _ _ _ _ _ Hlen). intros [= <-].
    rewrite length_fmap, length_seq, <- list_fmap_compose.
    rewrite <- (list_fmap_id (seq 0 _)) at 2. by apply list_fmap_ext. }
  rewrite (buildJobs_cartesian _ _ _ _ _ _ H1 H2 Hlen). intros [= <-].
  destruct (0 <? _); by rewrite cartesian_jobs_index, cartesian_jobs_length.
Qed.

(** ** The pairing engine: the properties *)

(** C1 as stated fails on a shared list with a falsy entry: one prompt, no
    groups and the shared list [[""]] give no job at all, not
    [len(P) × len(S) = 1] job. *)
Lemma buildJobs_cartesian_falsy_shared_cex :
  let P := [JStr "p"] in
  let S := [JStr ""] in
  ¬ ∃ jobs,
      buildJobs (mkConfig (JStr CARTESIAN) (JArr S) (JArr P) (JArr []) JUndefined)
      = Ok jobs
      ∧ length jobs = length P * length S.
Proof. intros P S [jobs [Hb Hl]]. vm_compute in Hb. by injection Hb as <-. Qed.

(** C1 (amended): in cartesian mode, with [G'] the groups after coercing each
    non-list group to the empty list and [S'] the shared list without its
    falsy entries: the indices are [0 .. N-1] in order; if [G] is non-empty
    there are [len(P) × len(G)] jobs and the job at position [i·len(G) + g]
    (prompt outer, group inner) pairs prompt [i] with the whole group
    [G'[g]], an empty group giving a job with empty refs for every prompt;
    if [G] is empty there are [len(P) × len(S')] jobs and the job at position
    [i·len(S') + r] pairs prompt [i] with the singleton [[S'[r]]]. *)
Theorem buildJobs_cartesian_spec (P G S : list JsVal) (pl : JsVal) :
  let G' := List.map (λ g, toArraySafe g []) G in
  let S' := List.filter truthy S in
  ∃ jobs,
    buildJobs (mkConfig (JStr CARTESIAN) (JArr S) (JArr P) (JArr G) pl) = Ok jobs
    ∧ index <$> jobs = seq 0 (length jobs)
    ∧ (G ≠ [] →
       length jobs = length P * length G
       ∧ (∀ i g, i < length P → g < length G →
            jobs !! (i * length G + g)
            = Some (mkJob (i * length G + g) (nth i P JUndefined) (nth g G' []) pl))
       ∧ (∀ i g, i < length P → G !! g = Some (JArr []) →
            ∃ j, jobs !! (i * length G + g) = Some j
                 ∧ prompt j = nth i P JUndefined ∧ refs j = []))
    ∧ (G = [] →
       length jobs = length P * length S'
       ∧ (∀ i r, i < length P → r < length S' →
            jobs !! (i * length S' + r)
            = Some (mkJob (i * length S' + r) (nth i P JUndefined)
                          [nth r S' JUndefined] pl))).
Proof.
  intros G' S'.
  assert (HG : length G' = length G) by apply length_map.
  eexists. split.
  { by apply (buildJobs_cartesian _ _ _ _ _ (Some (length P))). }
  change (cleanPerPrompt (JArr G)) with G'.
  change (cleanShared (JArr S)) with S'.
  cbn [loop_bound]. rewrite HG. split; [|split].
  - destruct (0 <? length G);
      by rewrite cartesian_jobs_index, cartesian_jobs_length.
  - intros HGne. destruct G as [|g0 G0]; [done|]. cbn [length Nat.ltb Nat.leb].
    split; [apply cartesian_jobs_length|]. split.
    + intros i g Hi Hg. by apply cartesian_jobs_lookup.
    + intros i g Hi Hg. apply lookup_lt_Some in Hg as Hlt.
      eexists. split; [by apply cartesian_jobs_lookup|]. split; [done|].
      cbn [refs]. subst G'.
      erewrite (nth_lookup_Some _ _ _ []); [done|].
      change (List.map ?f ?l) with (f <$> l).
      by rewrite list_lookup_fmap, Hg.
  - intros ->. cbn [length Nat.ltb Nat.leb].
    split; [apply cartesian_jobs_length|].
    intros i r Hi Hr. by apply cartesian_jobs_lookup.
Qed.

Lemma buildJobs_cartesian_spec_witness :
  ∃ jobs,
    buildJobs (mkConfig (JStr CARTESIAN) (strs ["S1"; ""; "S2"])
                 (strs ["a"; "b"]) (JArr []) JNull) = Ok jobs
    ∧ length jobs = 4
    ∧ jobs !! 3 = Some (mkJob 3 (JStr "b") [JStr "S2"] JNull).
Proof.
  destruct (buildJobs_cartesian_spec [JStr "a"; JStr "b"] []
              [JStr "S1"; JStr ""; JStr "S2"] JNull)
    as [jobs (Hb & _ & _ & Hfb)].
  destruct (Hfb eq_refl) as [Hlen Hat].
  exists jobs. split; [exact Hb|]. split; [exact Hlen|].
  apply (Hat 1 1); simpl; lia.
Defined.

(** C2 as stated fails: a mode value outside the three named ones is not
    answered with an empty list, it runs the cartesian branch. *)
Lemma buildJobs_other_mode_cex :
  buildJobs (mkConfig (JStr "other") (strs ["S1"]) (strs ["a"]) JUndefined
               JUndefined)
  ≠ Ok [].
Proof. vm_compute. discriminate. Qed.

(** C2 (amended): an empty prompt list gives the empty job list in every
    mode, named or not, without failing; a mode value other than one-to-many
    and zip is handled exactly as cartesian. *)
Theorem buildJobs_empty_prompts_any_mode (m sh pp pl : JsVal) :
  buildJobs (mkConfig m sh (JArr []) pp pl) = Ok []
  ∧ ∀ P, m ≠ JStr ONE_TO_MANY → m ≠ JStr ZIP →
      buildJobs (mkConfig m sh P pp pl)
      = buildJobs (mkConfig (JStr CARTESIAN) sh P pp pl).
Proof.
  split.
  - unfold buildJobs. cbn [mode prompts js_length length].
    destruct (strict_eq_str m ONE_TO_MANY); [done|].
    destruct (strict_eq_str m ZIP).
    + by destruct (cleanPerPrompt pp).
    + by destruct (0 <? _).
  - intros P H1 H2.
    assert (E1 : strict_eq_str m ONE_TO_MANY = false).
    { destruct m as [| | | |t|]; try done. simpl.
      apply String.eqb_neq. congruence. }
    assert (E2 : strict_eq_str m ZIP = false).
    { destruct m as [| | | |t|]; try done. simpl.
      apply String.eqb_neq. congruence. }
    unfold buildJobs. cbn [mode]. rewrite E1, E2. done.
Qed.

Lemma buildJobs_empty_prompts_any_mode_witness :
  buildJobs (mkConfig (JNum 7) (strs ["S1"]) (JArr []) JUndefined JNull) = Ok []
  ∧ buildJobs (mkConfig (JNum 7) (strs ["S1"]) (strs ["a"]) JUndefined JNull)
    = buildJobs (mkConfig (JStr CARTESIAN) (strs ["S1"]) (strs ["a"])
                   JUndefined JNull).
Proof.
  destruct (buildJobs_empty_prompts_any_mode (JNum 7) (strs ["S1"]) JUndefined
              JNull) as [He Hm].
  split; [exact He|]. apply Hm; discriminate.
Defined.

Lemma cleanPerPrompt_lookup (G : list JsVal) (k : nat) (g : JsVal) :
  G !! k = Some g → nth k (cleanPerPrompt (JArr G)) [] = toArraySafe g [].
Proof.
  intros Hk. apply nth_lookup_Some. unfold cleanPerPrompt. cbn [toArraySafe].
  change (List.map ?f ?l) with (f <$> l).
  by rewrite list_lookup_fmap, Hk.
Qed.

(** C5 as stated fails on a group list with an entry that is not a list
    (the parameter type allows [undefined] entries): the job's refs are then
    the empty list, not that entry. *)
Lemma buildJobs_zip_non_list_group_cex :
  let P := [JStr "p"] in
  let G := [JUndefined] in
  ¬ ∃ jobs,
      buildJobs (mkConfig (JStr ZIP) JUndefined (JArr P) (JArr G) JUndefined)
      = Ok jobs
      ∧ ∀ i, i < Nat.min (length P) (length G) →
          ∃ j, jobs !! i = Some j ∧ JArr (refs j) = nth i G JUndefined.
Proof.
  intros P G [jobs [Hb Hall]]. vm_compute in Hb. injection Hb as <-.
  destruct (Hall 0) as (j & Hj & Hr); [simpl; lia|].
  injection Hj as <-. discriminate Hr.
Qed.

(** C5 (amended): in zip mode, for a prompt list [P] and a group list [G],
    [buildJobs] returns (without failing) exactly [min(len(P), len(G))]
    jobs, job [i] carrying index [i], prompt [P[i]] and as refs the list
    [G[i]] when [G[i]] is a list and the empty list when it is not; what
    lies beyond the shorter length leaves no trace in the result. *)
Theorem buildJobs_zip_spec (P G : list JsVal) (sh pl : JsVal) :
  ∃ jobs,
    buildJobs (mkConfig (JStr ZIP) sh (JArr P) (JArr G) pl) = Ok jobs
    ∧ length jobs = Nat.min (length P) (length G)
    ∧ index <$> jobs = seq 0 (length jobs)
    ∧ (∀ i g, i < length P → G !! i = Some g →
         jobs !! i = Some (mkJob i (nth i P JUndefined) (toArraySafe g []) pl))
    ∧ (∀ l, toArraySafe (JArr l) [] = l)
    ∧ (∀ g, isArray g = false → toArraySafe g [] = []).
Proof.
  assert (HG : length (cleanPerPrompt (JArr G)) = length G) by apply length_map.
  eexists. split.
  { by apply (buildJobs_zip _ _ _ _ (Some (length P))). }
  rewrite HG. cbn [math_min loop_bound].
  split; [by rewrite length_fmap, length_seq|].
  split.
  { rewrite length_fmap, length_seq, <- list_fmap_compose.
    rewrite <- (list_fmap_id (seq 0 _)) at 2. by apply list_fmap_ext. }
  split; [|split; [done|by intros []]].
  intros i g Hi Hg. apply lookup_lt_Some in Hg as Hlt.
  rewrite list_lookup_fmap, lookup_seq_lt by lia.
  cbn [fmap option_fmap option_map Nat.add js_get].
  by rewrite (cleanPerPrompt_lookup _ _ _ Hg).
Qed.

Lemma buildJobs_zip_spec_witness :
  ∃ jobs,
    buildJobs (mkConfig (JStr ZIP) JUndefined (strs ["p1"; "p2"; "p3"; "p4"])
                 (JArr [strs ["r1"]; strs ["r2"; ""]]) JNull) = Ok jobs
    ∧ length jobs = 2
    ∧ jobs !! 1 = Some (mkJob 1 (JStr "p2") [JStr "r2"; JStr ""] JNull).
Proof.
  destruct (buildJobs_zip_spec
              [JStr "p1"; JStr "p2"; JStr "p3"; JStr "p4"]
              [strs ["r1"]; strs ["r2"; ""]] JUndefined JNull)
    as [jobs (Hb & Hlen & _ & Hat & _)].
  exists jobs. split; [exact Hb|]. split; [exact Hlen|].
  apply (Hat 1 (strs ["r2"; ""])); [simpl; lia|reflexivity].
Defined.

(** C6 as stated fails on a shared list with a falsy entry: with the shared
    list [[""]] the job's refs are empty, not the shared list. *)
Lemma buildJobs_one_to_many_falsy_shared_cex :
  let S := [JStr ""] in
  ¬ ∃ jobs,
      buildJobs (mkConfig (JStr ONE_TO_MANY) (JArr S) (JArr [JStr "p"])
                   JUndefined JUndefined) = Ok jobs
      ∧ ∀ j, j ∈ jobs → refs j = S.
Proof.
  intros S [jobs [Hb Hall]]. vm_compute in Hb. injection Hb as <-.
  specialize (Hall _ (list_elem_of_here _ _)). discriminate Hall.
Qed.

(** C6 (amended): in one-to-many mode [buildJobs] returns exactly [len(P)]
    jobs with indices [0 .. len(P)-1] in order, job [i] carrying prompt
    [P[i]], and every job's refs equal [S] without its falsy entries, which
    is [S] itself when [S] has none. *)
Theorem buildJobs_one_to_many_spec (P S : list JsVal) (pp pl : JsVal) :
  ∃ jobs,
    buildJobs (mkConfig (JStr ONE_TO_MANY) (JArr S) (JArr P) pp pl) = Ok jobs
    ∧ length jobs = length P
    ∧ index <$> jobs = seq 0 (length P)
    ∧ (∀ i, i < length P →
         jobs !! i = Some (mkJob i (nth i P JUndefined) (List.filter truthy S) pl))
    ∧ (forallb truthy S = true → List.filter truthy S = S).
Proof.
  eexists. split; [apply buildJobs_one_to_many|].
  split; [apply length_imap|].
  assert (Hat : ∀ i, i < length P →
            imap (λ i p, mkJob i p (cleanShared (JArr S)) pl) P !! i
            = Some (mkJob i (nth i P JUndefined) (List.filter truthy S) pl)).
  { intros i Hi. rewrite list_lookup_imap.
    destruct (lookup_lt_is_Some_2 P i Hi) as [p Hp].
    rewrite Hp. simpl. by rewrite (nth_lookup_Some _ _ _ _ Hp). }
  split; [|split; [exact Hat|]].
  - apply list_eq. intros k. rewrite list_lookup_fmap.
    destruct (decide (k < length P)) as [Hk|Hk].
    + by rewrite (Hat k Hk), lookup_seq_lt.
    + rewrite lookup_seq_ge by lia.
      rewrite (lookup_ge_None_2 (imap _ P) k); [done|].
      rewrite length_imap. lia.
  - clear Hat. intros Hall. induction S as [|s S' IH]; [done|].
    simpl in Hall |- *. apply andb_prop in Hall as [Hs HS'].
    rewrite Hs. f_equal. by apply IH.
Qed.

Lemma buildJobs_one_to_many_spec_witness :
  ∃ jobs,
    buildJobs (mkConfig (JStr ONE_TO_MANY) (strs ["S1"; "S2"])
                 (strs ["p1"; "p2"; "p3"]) JUndefined JNull) = Ok jobs
    ∧ jobs !! 2 = Some (mkJob 2 (JStr "p3") [JStr "S1"; JStr "S2"] JNull)
    ∧ List.filter truthy [JStr "S1"; JStr "S2"] = [JStr "S1"; JStr "S2"].
Proof.
  destruct (buildJobs_one_to_many_spec [JStr "p1"; JStr "p2"; JStr "p3"]
              [JStr "S1"; JStr "S2"] JUndefined JNull)
    as [jobs (Hb & _ & _ & Hat & Hid)].
  exists jobs. split; [exact Hb|]. split.
  - apply (Hat 2). simpl. lia.
  - apply Hid. reflexivity.
Defined.

(** C7 as stated fails: a prompts value that is not a list makes
    [buildJobs] throw (here [undefined], in one-to-many mode); only the refs
    and the groups go through [toArraySafe]. *)
Lemma buildJobs_prompts_undefined_cex :
  buildJobs (mkConfig (JStr ONE_TO_MANY) (strs ["S1"]) JUndefined JUndefined
               JUndefined)
  = Throw TypeError.
Proof. reflexivity. Qed.

Lemma cleanPerPrompt_idem pp :
  cleanPerPrompt (JArr (JArr <$> cleanPerPrompt pp)) = cleanPerPrompt pp.
Proof.
  unfold cleanPerPrompt at 1. cbn [toArraySafe].
  change (List.map ?f ?l) with (f <$> l).
  rewrite <- list_fmap_compose. apply list_fmap_id.
Qed.

(** C7 (amended): for every mode value, every list of prompts and every
    value, list or not, given as shared refs and as groups, [buildJobs]
    returns a job list and does not throw, and it returns what it returns
    on the normalised input, where a value that is not a list, given as
    shared refs, as groups or as a single group, has become the empty
    list. *)
Theorem buildJobs_total_on_prompt_lists (m sh pp pl : JsVal) (P : list JsVal) :
  (∃ jobs, buildJobs (mkConfig m sh (JArr P) pp pl) = Ok jobs)
  ∧ buildJobs (mkConfig m sh (JArr P) pp pl)
    = buildJobs (mkConfig m (JArr (toArraySafe sh []))
                   (JArr P) (JArr (JArr <$> cleanPerPrompt pp)) pl)
  ∧ (∀ v, isArray v = false → toArraySafe v [] = [])
  ∧ (isArray pp = false → cleanPerPrompt pp = []).
Proof.
  split; [|split; [|split]].
  - unfold buildJobs. cbn [mode prompts js_length].
    destruct (strict_eq_str m ONE_TO_MANY); [by eexists|].
    destruct (strict_eq_str m ZIP); [by eexists|].
    destruct (0 <? _); by eexists.
  - unfold buildJobs.
    cbn [mode sharedRefs prompts perPromptRefs extraPayload].
    fold (cleanPerPrompt pp).
    fold (cleanPerPrompt (JArr (JArr <$> cleanPerPrompt pp))).
    rewrite cleanPerPrompt_idem. done.
  - by intros [].
  - by destruct pp.
Qed.

Lemma buildJobs_total_on_prompt_lists_witness :
  (∃ jobs,
     buildJobs (mkConfig (JStr ZIP) (JNum 3) (strs ["a"; "b"])
                  (JArr [JNull; strs ["x"]]) JNull) = Ok jobs)
  ∧ toArraySafe (JNum 3) [] = []
  ∧ cleanPerPrompt JUndefined = [].
Proof.
  destruct (buildJobs_total_on_prompt_lists (JStr ZIP) (JNum 3) JUndefined
              JNull [JStr "a"; JStr "b"]) as (_ & _ & Hv & Hpp).
  destruct (buildJobs_total_on_prompt_lists (JStr ZIP) (JNum 3)
              (JArr [JNull; strs ["x"]]) JNull [JStr "a"; JStr "b"])
    as (Hok & _).
  split; [exact Hok|]. split; [by apply Hv|by apply Hpp].
Defined.

Lemma cleanShared_elem (S : list JsVal) (r : nat) :
  r < length (cleanShared (JArr S)) →
  nth r (cleanShared (JArr S)) JUndefined ∈ S
  ∧ truthy (nth r (cleanShared (JArr S)) JUndefined) = true.
Proof.
  intros Hr. unfold cleanShared in *. cbn [toArraySafe] in *.
  destruct (lookup_lt_is_Some_2 _ _ Hr) as [s Hs].
  rewrite (nth_lookup_Some _ _ _ _ Hs).
  apply list_elem_of_lookup_2, list_elem_of_In, filter_In in Hs as [Hin Ht].
  split; [by apply list_elem_of_In|done].
Qed.

(** C10: the refs of a job are a group as given, or shared refs after
    filtering.  In zip mode job [i], and in cartesian mode with groups every
    job at [i·len(G) + k], carries the elements of group [G[i]] (resp.
    [G[k]]) unchanged, falsy ones included, a group that is not a list
    counting as empty; in one-to-many mode every job carries the shared list
    without its falsy entries, and in cartesian mode without groups every
    job carries one truthy entry of the shared list. *)
Theorem buildJobs_refs_verbatim_or_filtered (P G S : list JsVal) (pl : JsVal) :
  (∃ jobs,
     buildJobs (mkConfig (JStr ZIP) (JArr S) (JArr P) (JArr G) pl) = Ok jobs
     ∧ ∀ i g, i < length P → G !! i = Some g →
         ∃ j, jobs !! i = Some j ∧ refs j = toArraySafe g []
              ∧ ∀ l, g = JArr l → refs j = l)
  ∧ (∃ jobs,
       buildJobs (mkConfig (JStr CARTESIAN) (JArr S) (JArr P) (JArr G) pl) = Ok jobs
       ∧ (∀ i k g, i < length P → G !! k = Some g →
            ∃ j, jobs !! (i * length G + k) = Some j
                 ∧ refs j = toArraySafe g []
                 ∧ ∀ l, g = JArr l → refs j = l)
       ∧ (G = [] → ∀ j, j ∈ jobs →
            ∃ s, refs j = [s] ∧ s ∈ S ∧ truthy s = true))
  ∧ (∃ jobs,
       buildJobs (mkConfig (JStr ONE_TO_MANY) (JArr S) (JArr P) (JArr G) pl) = Ok jobs
       ∧ ∀ j, j ∈ jobs → refs j = List.filter truthy S).
Proof.
  assert (HG : length (cleanPerPrompt (JArr G)) = length G) by apply length_map.
  split; [|split].
  - eexists. split.
    { by apply (buildJobs_zip _ _ _ _ (Some (length P))). }
    intros i g Hi Hg. apply lookup_lt_Some in Hg as Hlt.
    eexists. split.
    { cbn [math_min loop_bound]. rewrite HG.
      by rewrite list_lookup_fmap, lookup_seq_lt by lia. }
    cbn [refs Nat.add]. rewrite (cleanPerPrompt_lookup _ _ _ Hg).
    split; [done|]. by intros l ->.
  - eexists. split.
    { by apply (buildJobs_cartesian _ _ _ _ _ (Some (length P))). }
    rewrite HG. cbn [loop_bound]. split.
    + intros i k g Hi Hg. apply lookup_lt_Some in Hg as Hlt.
      destruct G as [|g0 G0]; [done|]. cbn [length Nat.ltb Nat.leb].
      eexists. split; [by apply cartesian_jobs_lookup|].
      cbn [refs]. rewrite (cleanPerPrompt_lookup _ _ _ Hg).
      split; [done|]. by intros l ->.
    + intros -> j Hj. cbn [length Nat.ltb Nat.leb] in Hj.
      unfold cartesian_jobs in Hj.
      apply list_elem_of_fmap in Hj as (k & -> & Hk).
      apply elem_of_seq in Hk. cbn [refs].
      eexists. split; [done|]. apply cleanShared_elem.
      apply Nat.mod_upper_bound. intros Hz. rewrite Hz in Hk. lia.
  - eexists. split; [apply buildJobs_one_to_many|].
    intros j Hj. apply elem_of_lookup_imap in Hj as (i & p & -> & _). done.
Qed.

Lemma buildJobs_refs_verbatim_or_filtered_witness :
  (∃ jobs j,
     buildJobs (mkConfig (JStr ZIP) (strs ["S"; ""]) (strs ["a"; "b"])
                  (JArr [strs [""; "x"]; JNull]) JNull) = Ok jobs
     ∧ jobs !! 0 = Some j ∧ refs j = [JStr ""; JStr "x"])
  ∧ (∃ jobs j,
       buildJobs (mkConfig (JStr CARTESIAN) (strs ["S"; ""]) (strs ["a"; "b"])
                    (JArr [strs [""; "x"]; JNull]) JNull) = Ok jobs
       ∧ jobs !! 3 = Some j ∧ refs j = []).
Proof.
  destruct (buildJobs_refs_verbatim_or_filtered [JStr "a"; JStr "b"]
              [strs [""; "x"]; JNull] [JStr "S"; JStr ""] JNull)
    as ((jz & Hz & Hzat) & (jc & Hc & Hcat & _) & _).
  split.
  - destruct (Hzat 0 (strs [""; "x"])) as (j & Hj & _ & Hl);
      [simpl; lia|reflexivity|].
    exists jz, j. split; [exact Hz|]. split; [exact Hj|]. by apply Hl.
  - destruct (Hcat 1 1 JNull) as (j & Hj & Hr & _);
      [simpl; lia|reflexivity|].
    exists jc, j. split; [exact Hc|]. split; [exact Hj|exact Hr].
Defined.

(** ** The simulated runner *)

Lemma Qlt_bool_iff (a b : Q) : Qlt_bool a b = true ↔ (a < b)%Q.
Proof.
  unfold Qlt_bool. rewrite negb_true_iff. split.
  - intros Hle. apply Qnot_le_lt. intros Hba.
    apply Qle_bool_iff in Hba. congruence.
  - intros Hlt. destruct (Qle_bool b a) eqn:E; [|done].
    apply Qle_bool_iff in E. by apply Qle_not_lt in E.
Qed.

(** C8: a run of [simulateRunJob] on the handle stored at [l] leaves that
    handle, and every other object of the store, as it was, and resolves
    with a newly allocated handle that copies [job_id], [job] and
    [submit_ts], has [finish_ts] set, and is [failed] with the error
    ["Simulated error"] exactly when the draw is below [failRate] and
    otherwise [succeeded] with the placeholder ["OK:"] followed by the
    decimal job index; either way its status is terminal.  This holds for
    every [failRate], in particular within [0, 1]. *)
Theorem simulateRunJob_resolves_to_copy (σ : gmap nat Handle) (l : nat)
    (handle : Handle) (latencyMsRange : Q * Q)
    (failRate rnd_delay rnd_fail : Q) (now : Z) :
  σ !! l = Some handle →
  ∃ σ' l' h',
    simulateRunJob_at σ l latencyMsRange failRate rnd_delay rnd_fail now
    = Some (σ', l')
    ∧ σ' !! l = Some handle
    ∧ σ !! l' = None
    ∧ (∀ k, k ≠ l' → σ' !! k = σ !! k)
    ∧ σ' !! l' = Some h'
    ∧ job_id h' = job_id handle
    ∧ job h' = job handle
    ∧ submit_ts h' = submit_ts handle
    ∧ finish_ts h' = Some now
    ∧ ((rnd_fail < failRate)%Q ↔ status h' = failed)
    ∧ (status h' = failed → error h' = Some "Simulated error")
    ∧ (¬ (rnd_fail < failRate)%Q ↔ status h' = succeeded)
    ∧ (status h' = succeeded →
       result_placeholder h' = Some ("OK:" +:+ pretty (index (job handle))))
    ∧ (status h' = succeeded ∨ status h' = failed).
Proof.
  intros Hl. unfold simulateRunJob_at. rewrite Hl.
  assert (Hfresh : σ !! fresh (dom σ) = None).
  { apply not_elem_of_dom. apply is_fresh. }
  assert (Hne : fresh (dom σ) ≠ l) by congruence.
  do 3 eexists. split; [reflexivity|].
  split; [by rewrite lookup_insert_ne|].
  split; [done|].
  split; [by intros k Hk; rewrite lookup_insert_ne|].
  split; [apply lookup_insert_eq|].
  unfold simulateRunJob. destruct latencyMsRange as [min max]. cbn [snd].
  destruct (Qlt_bool rnd_fail failRate) eqn:E; cbn.
  - apply Qlt_bool_iff in E. repeat split; try done. by right.
  - assert (¬ (rnd_fail < failRate)%Q).
    { intros Hlt. apply Qlt_bool_iff in Hlt. congruence. }
    repeat split; try done. by left.
Qed.

Lemma simulateRunJob_resolves_to_copy_witness :
  let h0 := simulateSubmit (mkJob 4 (JStr "p") [] JNull) "ab12cd34" 1000 in
  let σ : gmap nat Handle := {[ 0 := h0 ]} in
  ∃ σ' l' h',
    simulateRunJob_at σ 0 (300, 900)%Q (6 # 100) (1 # 2) (1 # 2) 1500
    = Some (σ', l')
    ∧ σ' !! 0 = Some h0
    ∧ σ' !! l' = Some h'
    ∧ status h' = succeeded
    ∧ result_placeholder h' = Some "OK:4".
Proof.
  intros h0 σ.
  destruct (simulateRunJob_resolves_to_copy σ 0 h0 (300, 900)%Q (6 # 100)
              (1 # 2) (1 # 2) 1500 eq_refl)
    as (σ' & l' & h' & Hrun & Hold & _ & _ & Hnew & _ & _ & _ & _ & _ & _
        & Hok & Hres & _).
  exists σ', l', h'. split; [exact Hrun|]. split; [exact Hold|].
  split; [exact Hnew|].
  assert (Hs : status h' = succeeded).
  { apply Hok. intros Hlt. vm_compute in Hlt. discriminate Hlt. }
  split; [exact Hs|]. exact (Hres Hs).
Defined.

(** ** The collect step *)

Lemma forEach_byIndex_lookup (rs : list Handle) (from : nat)
    (m : gmap nat Handle) (k : nat) :
  forEach rs from (λ r _ byIndex, <[index (job r) := r]> byIndex) m !! k
  = match last (filter (λ r, index (job r) = k) rs) with
    | Some r => Some r
    | None => m !! k
    end.
Proof.
  revert from m. induction rs as [|r rs IH]; intros from m; [done|].
  cbn [forEach]. rewrite IH, filter_cons.
  destruct (decide (index (job r) = k)) as [Hk|Hk].
  - rewrite last_cons.
    destruct (last (filter _ rs)); [done|]. by rewrite Hk, lookup_insert_eq.
  - destruct (last (filter _ rs)); [done|]. by rewrite lookup_insert_ne.
Qed.

Lemma byIndex_of_lookup (results : list Handle) (k : nat) :
  byIndex_of results !! k = last (filter (λ r, index (job r) = k) results).
Proof.
  unfold byIndex_of. rewrite forEach_byIndex_lookup.
  by destruct (last _).
Qed.

Lemma byIndex_of_Some (results : list Handle) (k : nat) (r : Handle) :
  byIndex_of results !! k = Some r → r ∈ results ∧ index (job r) = k.
Proof.
  rewrite byIndex_of_lookup. intros Hlast.
  apply last_Some_elem_of, list_elem_of_filter in Hlast. tauto.
Qed.

Lemma byIndex_of_None (results : list Handle) (k : nat) :
  (∀ r, r ∈ results → index (job r) ≠ k) → byIndex_of results !! k = None.
Proof.
  intros Hno. destruct (byIndex_of results !! k) as [r|] eqn:E; [|done].
  apply byIndex_of_Some in E as [Hin Hk]. by destruct (Hno r Hin).
Qed.

Lemma filter_index_short (results : list Handle) (k : nat) :
  NoDup ((λ h, index (job h)) <$> results) →
  length (filter (λ r, index (job r) = k) results) ≤ 1.
Proof.
  induction results as [|r rs IH]; [simpl; lia|].
  rewrite fmap_cons, NoDup_cons, filter_cons. intros [Hnin Hnd].
  destruct (decide (index (job r) = k)) as [Hk|Hk]; [|by apply IH].
  assert (filter (λ r0, index (job r0) = k) rs = []) as ->; [|simpl; lia].
  destruct (filter (λ r0, index (job r0) = k) rs) as [|x l] eqn:E; [done|].
  assert (Hx : x ∈ filter (λ r0, index (job r0) = k) rs)
    by (rewrite E; apply list_elem_of_here).
  apply list_elem_of_filter in Hx as [Hxk Hx]. destruct Hnin.
  apply list_elem_of_fmap. exists x. split; [congruence|done].
Qed.

Lemma byIndex_of_perm (results results' : list Handle) :
  NoDup ((λ h, index (job h)) <$> results) →
  results' ≡ₚ results →
  byIndex_of results' = byIndex_of results.
Proof.
  intros Hnd Hperm. apply map_eq. intros k. rewrite !byIndex_of_lookup.
  pose proof (filter_index_short results k Hnd) as Hshort.
  assert (Hf : filter (λ r, index (job r) = k) results'
               ≡ₚ filter (λ r, index (job r) = k) results)
    by (by rewrite Hperm).
  destruct (filter (λ r, index (job r) = k) results) as [|x [|y l]].
  - by apply Permutation_nil_r in Hf as ->.
  - by apply Permutation_singleton_r in Hf as ->.
  - simpl in Hshort. lia.
Qed.

Lemma onCollect_lookup (jobs : list Job) (results : list Handle)
    (clock : nat → Z) (pos : nat) (j : Job) :
  jobs !! pos = Some j →
  onCollect jobs results clock !! pos
  = Some (match byIndex_of results !! index j with
          | Some r => r
          | None => pending_handle j (clock pos)
          end).
Proof. intros Hj. unfold onCollect. by rewrite list_lookup_imap, Hj. Qed.

Lemma onCollect_indices (jobs : list Job) (results : list Handle)
    (clock : nat → Z) :
  (λ h, index (job h)) <$> onCollect jobs results clock = index <$> jobs.
Proof.
  apply list_eq. intros pos. rewrite !list_lookup_fmap.
  destruct (jobs !! pos) as [j|] eqn:Hj.
  - rewrite (onCollect_lookup _ _ _ _ _ Hj). cbn.
    destruct (byIndex_of results !! index j) as [r|] eqn:E; [|done].
    by apply byIndex_of_Some in E as [_ ->].
  - unfold onCollect. by rewrite list_lookup_imap, Hj.
Qed.

(** C4: for every job list and every accumulated result list, the collected
    list has the length of the job list and, position by position, the job
    index of the job list (that is [0, 1, 2, ...] for a list built by
    [buildJobs]).  At the position of job [j] it holds the accumulated
    handle of that index (the one added last, if several) and, when no
    accumulated handle has that index, a placeholder: queued, owning [j],
    with no finish time, result or error, and with the id ["pending_"]
    followed by the index, which no submitted handle has and which differs
    from index to index.  Accumulated handles with distinct indices give the
    same collected list in whatever order they arrived. *)
Theorem onCollect_aligned (jobs : list Job) (results : list Handle)
    (clock : nat → Z) :
  let out := onCollect jobs results clock in
  length out = length jobs
  ∧ (λ h, index (job h)) <$> out = index <$> jobs
  ∧ (∀ cfg, buildJobs cfg = Ok jobs →
       (λ h, index (job h)) <$> out = seq 0 (length jobs))
  ∧ (∀ pos j, jobs !! pos = Some j →
       (∀ r, last (filter (λ r, index (job r) = index j) results) = Some r →
          out !! pos = Some r)
       ∧ ((∀ r, r ∈ results → index (job r) ≠ index j) →
          out !! pos = Some (pending_handle j (clock pos))))
  ∧ (∀ j now,
       status (pending_handle j now) = queued
       ∧ job (pending_handle j now) = j
       ∧ finish_ts (pending_handle j now) = None
       ∧ result_placeholder (pending_handle j now) = None
       ∧ error (pending_handle j now) = None
       ∧ (∀ j' rnd now',
            job_id (pending_handle j now) ≠ job_id (simulateSubmit j' rnd now'))
       ∧ (∀ j' now',
            job_id (pending_handle j' now') = job_id (pending_handle j now) →
            index j' = index j))
  ∧ (∀ results',
       NoDup ((λ h, index (job h)) <$> results) → results' ≡ₚ results →
       onCollect jobs results' clock = out).
Proof.
  intros out. subst out.
  split; [apply length_imap|].
  split; [apply onCollect_indices|].
  split.
  { intros cfg Hb. rewrite onCollect_indices. by apply (buildJobs_indices cfg). }
  split.
  { intros pos j Hj. rewrite (onCollect_lookup _ _ _ _ _ Hj). split.
    - intros r Hr. by rewrite byIndex_of_lookup, Hr.
    - intros Hno. by rewrite byIndex_of_None. }
  split.
  { intros j now. repeat split; try done.
    intros j' now' Hid. cbn in Hid. injection Hid as Hid.
    change (pretty (index j') = pretty (index j)) in Hid.
    by apply (inj pretty) in Hid. }
  intros results' Hnd Hperm. unfold onCollect.
  by rewrite (byIndex_of_perm _ _ Hnd Hperm).
Qed.

Lemma onCollect_aligned_witness :
  let j0 := mkJob 0 (JStr "a") [] JNull in
  let j1 := mkJob 1 (JStr "b") [] JNull in
  let j2 := mkJob 2 (JStr "c") [] JNull in
  let done2 := mkHandle "job_zz" succeeded j2 5 (Some 9%Z) (Some "OK:2") None in
  let done0 := mkHandle "job_aa" failed j0 5 (Some 12%Z) None (Some "Simulated error") in
  let out := onCollect [j0; j1; j2] [done2; done0] (λ _, 20%Z) in
  (λ h, index (job h)) <$> out = [0; 1; 2]
  ∧ out !! 0 = Some done0
  ∧ out !! 1 = Some (pending_handle j1 20)
  ∧ onCollect [j0; j1; j2] [done0; done2] (λ _, 20%Z) = out.
Proof.
  intros j0 j1 j2 done2 done0 out.
  destruct (onCollect_aligned [j0; j1; j2] [done2; done0] (λ _, 20%Z))
    as (_ & _ & Hseq & Hat & _ & Hperm).
  split.
  { apply (Hseq (mkConfig (JStr ZIP) JUndefined (strs ["a"; "b"; "c"])
                   (JArr [JArr []; JArr []; JArr []]) JNull)).
    reflexivity. }
  split.
  { apply (Hat 0 j0 eq_refl). reflexivity. }
  split.
  { apply (Hat 1 j1 eq_refl). intros r Hr.
    apply list_elem_of_In in Hr. simpl in Hr.
    destruct Hr as [<-|[<-|[]]]; simpl; lia. }
  apply Hperm.
  - apply NoDup_ListNoDup. simpl. repeat constructor; simpl; intuition lia.
  - apply perm_swap.
Defined.

(** ** The promise pool *)

Module PoolTheory.
Import Pool.

Section WithPool.
Context {T R : Type} (items : list T) (k : Z) (onProgress : bool).

Implicit Types (st : PoolState T R) (ev : Event R) (evs : list (Event R)).

Lemma queued_values_app (a b : list (Reaction R)) :
  queued_values (a ++ b) = queued_values a ++ queued_values b.
Proof. apply omap_app. Qed.

Lemma queued_values_nil : queued_values (R:=R) [] = [].
Proof. done. Qed.

Lemma queued_values_then (r : R) (rest : list (Reaction R)) :
  queued_values (ThenReaction (Fulfilled r) :: rest) = r :: queued_values rest.
Proof. done. Qed.

Lemma queued_values_finally (rest : list (Reaction R)) :
  queued_values (FinallyReaction :: rest) = queued_values rest.
Proof. done. Qed.

(** Arithmetic on the lengths of the lists of a state. *)
Local Ltac pool_arith :=
  rewrite ?queued_values_app, ?queued_values_then, ?queued_values_finally,
    ?queued_values_nil, ?length_app in *;
  cbn [length] in *; lia.

(** The routine fields of the invariant after an event. *)
Local Ltac pool_field :=
  first
    [ done
    | pool_arith
    | by (apply Forall_app; split; [|repeat constructor])
    | by (right; right; apply elem_of_app; right; apply list_elem_of_here)
    | by left
    | idtac ].

(** One round of the loop of [pump] keeps the invariant. *)
Lemma pump_loop_inv (fuel : nat) st :
  Inv items k st → Inv items k (pump_loop k fuel st).
Proof.
  revert st. induction fuel as [|fuel IH]; intros st HI; [done|].
  cbn [pump_loop].
  destruct (inFlight st <? k)%Z eqn:Hk; [|done].
  destruct (i st <? length (q st)) eqn:Hi; [|done]. cbn [andb].
  apply Z.ltb_lt in Hk. apply Nat.ltb_lt in Hi.
  destruct (q st !! i st) as [item|] eqn:Hitem; [|done].
  apply IH. destruct HI as [Hq Hle Hcalls Hfl Hcap Hnr Hcnt Hres Hfull].
  rewrite Hq in Hi, Hitem.
  constructor; cbn [q res inFlight i resolved calls running microtasks];
    try done; try pool_arith.
  rewrite Hcalls. symmetry. by apply take_S_r.
Qed.

(** With [q.length - i] rounds the loop of [pump] runs to its exit. *)
Lemma pump_loop_saturates (fuel : nat) st :
  length (q st) - i st ≤ fuel → i st ≤ length (q st) →
  saturated k (pump_loop k fuel st).
Proof.
  revert st. induction fuel as [|fuel IH]; intros st Hfuel Hle.
  - left. simpl. lia.
  - cbn [pump_loop].
    destruct (inFlight st <? k)%Z eqn:Hk; cycle 1.
    { right. by apply Z.ltb_ge in Hk. }
    destruct (i st <? length (q st)) eqn:Hi; cycle 1.
    { left. apply Nat.ltb_ge in Hi. cbn [andb]. lia. }
    cbn [andb]. apply Nat.ltb_lt in Hi.
    destruct (lookup_lt_is_Some_2 (q st) (i st) Hi) as [item Hitem].
    rewrite Hitem. apply IH; cbn; lia.
Qed.

Lemma pump_loop_remaining (fuel : nat) st :
  remaining (pump_loop k fuel st) = remaining st.
Proof.
  revert st. induction fuel as [|fuel IH]; intros st; [done|].
  cbn [pump_loop].
  destruct (inFlight st <? k)%Z; [|done].
  destruct (i st <? length (q st)) eqn:Hi; [|done]. cbn [andb].
  apply Nat.ltb_lt in Hi.
  destruct (q st !! i st) as [item|]; [|done].
  rewrite IH. unfold remaining. cbn. rewrite length_app. simpl. lia.
Qed.

Lemma pump_loop_q (fuel : nat) st : q (pump_loop k fuel st) = q st.
Proof.
  revert st. induction fuel as [|fuel IH]; intros st; [done|].
  cbn [pump_loop].
  destruct (_ && _); [|done]. destruct (q st !! i st); [|done].
  by rewrite IH.
Qed.

Lemma pump_loop_res (fuel : nat) st :
  res (pump_loop k fuel st) = res st
  ∧ microtasks (pump_loop k fuel st) = microtasks st.
Proof.
  revert st. induction fuel as [|fuel IH]; intros st; [done|].
  cbn [pump_loop].
  destruct (_ && _); [|done]. destruct (q st !! i st) as [item|]; [|done].
  by destruct (IH (mkPool (q st) (res st) (inFlight st + 1)%Z (S (i st))
                     (resolved st) (calls st ++ [item]) (running st ++ [item])
                     (microtasks st) (progress st))) as [-> ->].
Qed.

Lemma pump_inv st : Inv items k st → Inv items k (pump k st).
Proof. apply pump_loop_inv. Qed.

Lemma pump_saturates st :
  i st ≤ length (q st) → saturated k (pump k st).
Proof. intros Hle. by apply pump_loop_saturates. Qed.

(** The state [runWithConcurrency] starts from. *)
Lemma start_inv :
  items ≠ [] → (1 ≤ k)%Z →
  Inv items k (runWithConcurrency (R:=R) items k)
  ∧ saturated k (runWithConcurrency (R:=R) items k).
Proof.
  intros Hne Hk.
  assert (HI : Inv items k (mkPool (R:=R) items [] 0 0 false [] [] [] [])).
  { constructor; cbn; try done; try lia.
    right. left. destruct items; [done|simpl; lia]. }
  split; [by apply pump_inv|]. by apply pump_saturates; cbn; lia.
Qed.

(** An event that is not a rejection keeps the invariant and the exit
    condition of [pump]. *)
Lemma step_inv ev st st' :
  fulfils ev → Inv items k st → saturated k st →
  step items k onProgress ev st = Some st' →
  Inv items k st' ∧ saturated k st'.
Proof.
  intros Hev HI Hsat Hstep.
  pose proof HI as [Hq Hle Hcalls Hfl Hcap Hnr Hcnt Hres Hfull].
  destruct ev as [n o|]; cbn [step] in Hstep.
  - destruct (running st !! n) as [x|] eqn:Hn; [|done].
    injection Hstep as <-.
    destruct o as [r|]; [|done].
    assert (Hlen : length (delete n (running st)) = length (running st) - 1).
    { apply length_delete. by eexists. }
    apply lookup_lt_Some in Hn.
    split; [|exact Hsat].
    constructor; cbn [q res inFlight i resolved calls running microtasks];
      rewrite ?Hlen; pool_field.
  - destruct (microtasks st) as [|m rest] eqn:Hms; [done|].
    apply Forall_cons in Hnr as [Hm Hrest].
    destruct m as [[r|]|]; [| done |].
    + injection Hstep as <-.
      split; [|exact Hsat].
      constructor; cbn [q res inFlight i resolved calls running microtasks];
        pool_field.
      intros Hr. specialize (Hfull Hr). pool_arith.
    + assert (Hres_le : length (res st) ≤ i st) by pool_arith.
      cbn in Hstep.
      destruct (length (res st) =? length items) eqn:Hfin.
      * apply Nat.eqb_eq in Hfin. injection Hstep as <-.
        split.
        -- constructor;
             cbn [q res inFlight i resolved calls running microtasks];
             pool_field.
        -- left. cbn. rewrite Hq. lia.
      * apply Nat.eqb_neq in Hfin. injection Hstep as <-.
        pose (st1 := mkPool (q st) (res st) (inFlight st - 1)%Z (i st)
                       (resolved st) (calls st) (running st) rest (progress st)).
        assert (HI1 : Inv items k st1).
        { constructor;
            cbn [st1 q res inFlight i resolved calls running microtasks];
            pool_field. }
        change (Inv items k (pump k st1) ∧ saturated k (pump k st1)).
        split; [exact (pump_inv _ HI1)|].
        apply pump_saturates. cbn. by rewrite Hq.
Qed.

(** Every event, rejections included, does one unit of the remaining work. *)
Lemma step_remaining ev st st' :
  step items k onProgress ev st = Some st' →
  S (remaining st') = remaining st.
Proof.
  intros Hstep. destruct ev as [n o|]; cbn [step] in Hstep.
  - destruct (running st !! n) as [x|] eqn:Hn; [|done].
    injection Hstep as <-.
    assert (Hlen : length (delete n (running st)) = length (running st) - 1).
    { apply length_delete. by eexists. }
    apply lookup_lt_Some in Hn.
    unfold remaining. cbn. rewrite Hlen, sum_list_with_app. simpl. lia.
  - destruct (microtasks st) as [|m rest] eqn:Hms; [done|].
    destruct m as [[r|]|].
    + injection Hstep as <-. unfold remaining. cbn.
      rewrite Hms, sum_list_with_app. simpl. lia.
    + injection Hstep as <-. unfold remaining. cbn.
      rewrite Hms, sum_list_with_app. simpl. lia.
    + cbn in Hstep. destruct (length (res st) =? length items).
      * injection Hstep as <-. unfold remaining. cbn. rewrite Hms. simpl. lia.
      * injection Hstep as <-. unfold pump. rewrite pump_loop_remaining.
        unfold remaining. cbn. rewrite Hms. simpl. lia.
Qed.

(** The fulfilled values are the results pushed so far followed by those
    still queued: [res] grows in completion order. *)
Lemma step_values ev st st' :
  step items k onProgress ev st = Some st' →
  res st' ++ queued_values (microtasks st')
  = (res st ++ queued_values (microtasks st)) ++ settled_values [ev].
Proof.
  intros Hstep. destruct ev as [n o|]; cbn [step] in Hstep.
  - destruct (running st !! n); [|done]. injection Hstep as <-. cbn.
    unfold queued_values, settled_values. rewrite omap_app.
    destruct o; cbn; by rewrite ?app_nil_r, ?app_assoc.
  - destruct (microtasks st) as [|m rest]; [done|].
    unfold settled_values. cbn [omap]. rewrite app_nil_r.
    destruct m as [[r|]|].
    + injection Hstep as <-. cbn. unfold queued_values.
      rewrite omap_app. cbn. by rewrite app_nil_r, <- app_assoc.
    + injection Hstep as <-. cbn. unfold queued_values.
      rewrite omap_app. cbn. by rewrite app_nil_r.
    + cbn in Hstep. destruct (length (res st) =? length items);
        injection Hstep as <-; [done|].
      unfold pump. by destruct (pump_loop_res (length (q st) - i st)
        (mkPool (q st) (res st) (inFlight st - 1)%Z (i st) (resolved st)
           (calls st) (running st) rest (progress st))) as [-> ->].
Qed.

Lemma run_inv evs st st' :
  Forall fulfils evs → Inv items k st → saturated k st →
  run items k onProgress evs st = Some st' →
  Inv items k st' ∧ saturated k st'.
Proof.
  revert st. induction evs as [|ev evs IH]; intros st Hall HI Hsat Hrun.
  - by injection Hrun as <-.
  - apply Forall_cons in Hall as [Hev Hall]. cbn [run] in Hrun.
    destruct (step items k onProgress ev st) as [st1|] eqn:Hstep; [|done].
    destruct (step_inv _ _ _ Hev HI Hsat Hstep) as [HI1 Hsat1].
    by apply (IH st1).
Qed.

Lemma run_remaining evs st st' :
  run items k onProgress evs st = Some st' →
  length evs + remaining st' = remaining st.
Proof.
  revert st. induction evs as [|ev evs IH]; intros st Hrun.
  - by injection Hrun as <-.
  - cbn [run] in Hrun.
    destruct (step items k onProgress ev st) as [st1|] eqn:Hstep; [|done].
    apply step_remaining in Hstep. apply IH in Hrun. simpl. lia.
Qed.

Lemma run_values evs st st' :
  run items k onProgress evs st = Some st' →
  res st' ++ queued_values (microtasks st')
  = (res st ++ queued_values (microtasks st)) ++ settled_values evs.
Proof.
  revert st. induction evs as [|ev evs IH]; intros st Hrun.
  - injection Hrun as <-. unfold settled_values. cbn. by rewrite app_nil_r.
  - cbn [run] in Hrun.
    destruct (step items k onProgress ev st) as [st1|] eqn:Hstep; [|done].
    apply step_values in Hstep. apply IH in Hrun. rewrite Hrun, Hstep.
    rewrite <- !app_assoc. f_equal. f_equal.
    unfold settled_values. by rewrite <- omap_app.
Qed.

End WithPool.

(** C9: for a non-empty item list, [k ≥ 1] and worker promises that are all
    fulfilled, in every state any schedule can reach: at most [k] calls are
    pending ([running] is no longer than [inFlight], which is at most [k]);
    the worker has been called on a prefix of [items], once per position
    and in order; the schedule is no longer than three events per item, and
    while a call is pending or a reaction is queued an event is enabled, so
    every schedule can be continued to a state where nothing is pending.
    There, and whenever [resolve] has been called, every item has been
    passed to the worker exactly once and [res] holds [len(items)] results;
    in the final state [resolve(res)] has been called and [res] lists the
    results in the order in which the worker promises were fulfilled. *)
Theorem runWithConcurrency_bounded_complete {T R : Type} (items : list T)
    (k : Z) (onProgress : bool) (evs : list (Event R)) (st : PoolState T R) :
  items ≠ [] → (1 ≤ k)%Z → Forall fulfils evs →
  run items k onProgress evs (runWithConcurrency items k) = Some st →
  (Z.of_nat (length (running st)) ≤ inFlight st ≤ k)%Z
  ∧ calls st = take (i st) items
  ∧ length evs ≤ 3 * length items
  ∧ (running st ≠ [] →
     ∀ r, is_Some (step items k onProgress (Settle 0 (Fulfilled r)) st))
  ∧ (microtasks st ≠ [] → is_Some (step items k onProgress Tick st))
  ∧ (resolved st = true → length (res st) = length items ∧ calls st = items)
  ∧ (running st = [] → microtasks st = [] →
     resolved st = true
     ∧ calls st = items
     ∧ length (res st) = length items
     ∧ res st = settled_values evs
     ∧ length evs = 3 * length items).
Proof.
  intros Hne Hk Hall Hrun.
  destruct (start_inv (R:=R) items k Hne Hk) as [HI0 Hsat0].
  destruct (run_inv items k onProgress _ _ _ Hall HI0 Hsat0 Hrun) as [HI Hsat].
  pose proof (run_remaining items k onProgress _ _ _ Hrun) as Hrem.
  pose proof (run_values items k onProgress _ _ _ Hrun) as Hvals.
  unfold runWithConcurrency, pump in Hrem, Hvals.
  rewrite pump_loop_remaining in Hrem.
  destruct (pump_loop_res (R:=R) k (length items - 0)
              (mkPool items [] 0 0 false [] [] [] [])) as [Hr0 Hm0].
  cbn [q i] in Hvals. rewrite Hr0, Hm0 in Hvals.
  unfold remaining in Hrem at 2. cbn in Hrem, Hvals.
  destruct HI as [Hq Hle Hcalls Hfl Hcap Hnr Hcnt Hres Hfull].
  assert (Hall_take : i st = length items → calls st = items).
  { intros Hi. rewrite Hcalls, Hi. apply firstn_all. }
  split; [lia|]. split; [exact Hcalls|]. split; [lia|].
  split.
  { intros Hrn r. cbn [step]. destruct (running st) as [|x l]; [done|].
    by eexists. }
  split.
  { intros Hms. cbn [step]. destruct (microtasks st) as [|[[r|]|] rest];
      [done|by eexists|by eexists|].
    cbn. destruct (_ =? _); by eexists. }
  split.
  { intros Hr. specialize (Hfull Hr). split; [done|].
    apply Hall_take. lia. }
  intros Hrn Hms. rewrite Hrn, Hms in *.
  cbn in Hfl, Hcnt, Hvals. rewrite app_nil_r in Hvals.
  assert (Hi : i st = length items).
  { destruct Hsat as [Hs|Hs]; [by rewrite Hq in Hs|lia]. }
  assert (Hlen : length (res st) = length items) by lia.
  split.
  { destruct Hres as [?|[?|Hin]]; [done|lia|].
    by apply elem_of_nil in Hin. }
  split; [by apply Hall_take|]. split; [done|]. split; [done|].
  rewrite Hq, Hi in Hrem. cbn in Hrem. lia.
Qed.

Lemma runWithConcurrency_bounded_complete_witness :
  ∃ st : PoolState string nat,
    run ["a"; "b"; "c"] 2 true
      [Settle 1 (Fulfilled 20); Tick; Tick; Settle 0 (Fulfilled 10); Tick;
       Tick; Settle 0 (Fulfilled 30); Tick; Tick]
      (runWithConcurrency ["a"; "b"; "c"] 2) = Some st
    ∧ resolved st = true
    ∧ calls st = ["a"; "b"; "c"]
    ∧ res st = [20; 10; 30].
Proof.
  eexists. split; [vm_compute; reflexivity|].
  match goal with
  | |- resolved ?s = _ ∧ _ =>
      destruct (runWithConcurrency_bounded_complete ["a"; "b"; "c"] 2 true
                  [Settle 1 (Fulfilled 20); Tick; Tick;
                   Settle 0 (Fulfilled 10); Tick; Tick;
                   Settle 0 (Fulfilled 30); Tick; Tick] s)
        as (_ & _ & _ & _ & _ & _ & Hfinal)
  end.
  - discriminate.
  - lia.
  - repeat constructor.
  - vm_compute. reflexivity.
  - destruct (Hfinal eq_refl eq_refl) as (Hr & Hc & _ & Hv & _).
    split; [exact Hr|]. split; [exact Hc|exact Hv].
Defined.

(** C3, on the code: on the empty item list [runWithConcurrency] does not
    call the worker, but it does not call [resolve] either, and it leaves
    nothing pending that could: the first [pump()] starts no call and
    [resolve] is only reached from the [finally] reaction of a call.  The
    returned promise stays pending under every schedule. *)
Theorem runWithConcurrency_empty_never_resolves {T R : Type} (k : Z)
    (onProgress : bool) :
  runWithConcurrency (T:=T) (R:=R) [] k = mkPool [] [] 0 0 false [] [] [] []
  ∧ (∀ ev : Event R,
       step [] k onProgress ev (runWithConcurrency (T:=T) [] k) = None)
  ∧ (∀ evs : list (Event R),
       run [] k onProgress evs (runWithConcurrency (T:=T) [] k)
       = match evs with
         | [] => Some (mkPool [] [] 0 0 false [] [] [] [])
         | _ :: _ => None
         end).
Proof.
  assert (H0 : runWithConcurrency (T:=T) (R:=R) [] k
               = mkPool [] [] 0 0 false [] [] [] []).
  { unfold runWithConcurrency, pump. done. }
  assert (Hstep : ∀ ev : Event R,
            step [] k onProgress ev (runWithConcurrency (T:=T) [] k) = None).
  { intros ev. rewrite H0. by destruct ev. }
  split; [exact H0|]. split; [exact Hstep|].
  intros [|ev evs]; [by rewrite H0|].
  cbn [run]. by rewrite Hstep.
Qed.

End PoolTheory.

(** ** Hashing and the gradient *)

Lemma to_int32_range (z : Z) : (- 2 ^ 31 ≤ to_int32 z < 2 ^ 31)%Z.
Proof.
  unfold to_int32.
  pose proof (Z.mod_pos_bound (z + 2 ^ 31) (2 ^ 32) eq_refl). lia.
Qed.

Lemma to_int32_shift (z k : Z) : to_int32 (z + k * 2 ^ 32) = to_int32 z.
Proof.
  unfold to_int32.
  replace (z + k * 2 ^ 32 + 2 ^ 31)%Z with (z + 2 ^ 31 + k * 2 ^ 32)%Z by lia.
  by rewrite Z_mod_plus_full.
Qed.

Lemma to_int32_offset (z : Z) : ∃ k, to_int32 z = (z + k * 2 ^ 32)%Z.
Proof.
  exists (- ((z + 2 ^ 31) / 2 ^ 32))%Z. unfold to_int32.
  pose proof (Z.div_mod (z + 2 ^ 31) (2 ^ 32)). lia.
Qed.

Lemma to_int32_small (z : Z) :
  (- 2 ^ 31 ≤ z < 2 ^ 31)%Z → to_int32 z = z.
Proof. intros Hz. unfold to_int32. rewrite Z.mod_small; lia. Qed.

(** One round of [hashCode] is [h ↦ 31·h + c] read as a signed 32-bit
    integer. *)
Lemma hashCode_step_poly (H : Z) (c : Ascii.ascii) :
  hashCode_step (to_int32 H) c = to_int32 (31 * H + charCode c).
Proof.
  unfold hashCode_step. rewrite Z.shiftl_mul_pow2 by lia.
  destruct (to_int32_offset H) as [k1 Hk1].
  destruct (to_int32_offset (to_int32 H)) as [k2 Hk2].
  destruct (to_int32_offset (to_int32 (to_int32 H) * 2 ^ 5)) as [k3 Hk3].
  rewrite Hk3, Hk2, Hk1.
  replace ((H + k1 * 2 ^ 32 + k2 * 2 ^ 32) * 2 ^ 5 + k3 * 2 ^ 32
           - (H + k1 * 2 ^ 32) + charCode c)%Z
    with (31 * H + charCode c
          + (32 * k1 + 32 * k2 + k3 - k1) * 2 ^ 32)%Z by lia.
  apply to_int32_shift.
Qed.

Lemma hashCode_loop_poly (str : string) (H : Z) :
  hashCode_loop str (to_int32 H) = to_int32 (poly31 str H).
Proof.
  revert H. induction str as [|c rest IH]; intros H; [done|].
  cbn [hashCode_loop poly31]. by rewrite hashCode_step_poly, IH.
Qed.

(** X1: [hashCode] is the polynomial hash [Σ s[i]·31^(n-1-i)] wrapped to a
    signed 32-bit integer; in particular it always lies in
    [[-2^31, 2^31)], however long the string. *)
Theorem hashCode_is_wrapped_poly31 (str : string) :
  hashCode str = to_int32 (poly31 str 0)
  ∧ (- 2 ^ 31 ≤ hashCode str < 2 ^ 31)%Z.
Proof.
  assert (E : hashCode str = to_int32 (poly31 str 0)).
  { unfold hashCode. rewrite <- hashCode_loop_poly. by rewrite to_int32_small. }
  split; [exact E|]. rewrite E. apply to_int32_range.
Qed.

(** X2: both hues of the gradient of a reference id are valid hue angles,
    at least 0 and below 360, and the second is the first turned by 40
    degrees. *)
Theorem gradient_hues_in_range (refId : string) :
  let '(hue, hue2) := gradient_hues refId in
  (0 ≤ hue < 360)%Z ∧ (0 ≤ hue2 < 360)%Z
  ∧ hue2 = ((hue + 40) mod 360)%Z
  ∧ gradientStyleForRef refId
    = "linear-gradient(135deg, hsl(" +:+ pretty hue +:+ ",70%,82%), hsl("
        +:+ pretty hue2 +:+ ",70%,72%))".
Proof.
  unfold gradientStyleForRef, gradient_hues. cbv zeta.
  pose proof (Z.abs_nonneg (hashCode refId)) as Habs.
  pose proof (Z.rem_bound_pos (Z.abs (hashCode refId)) 360 Habs eq_refl) as Hh.
  pose proof (Z.rem_bound_pos (Z.rem (Z.abs (hashCode refId)) 360 + 40) 360)
    as Hh2.
  split; [lia|]. split; [lia|]. split; [|done].
  apply Z.rem_mod_nonneg; lia.
Qed.

(** ** Latency *)







(** ** Reference groups *)

Lemma pad_loop_spec (fuel n : nat) (next : list (list string)) :
  pad_loop fuel n next
  = next ++ replicate (Nat.min fuel (n - length next)) [].
Proof.
  revert next. induction fuel as [|fuel IH]; intros next.
  - by rewrite app_nil_r.
  - cbn [pad_loop]. destruct (length next <? n) eqn:E.
    + apply Nat.ltb_lt in E. rewrite IH. unfold push.
      rewrite length_app, <- app_assoc. cbn [length]. f_equal.
      replace (Nat.min (S fuel) (n - length next))
        with (S (Nat.min fuel (n - (length next + 1)))) by lia.
      done.
    + apply Nat.ltb_ge in E.
      replace (n - length next) with 0 by lia.
      rewrite Nat.min_0_r. by rewrite app_nil_r.
Qed.

Lemma syncGroups_spec (prev : list (list string)) (n : nat) :
  syncGroups prev n = take n prev ++ replicate (n - length prev) [].
Proof.
  unfold syncGroups. rewrite pad_loop_spec, length_take. do 2 f_equal. lia.
Qed.

Lemma syncGroups_lookup (prev : list (list string)) (n : nat) :
  length (syncGroups prev n) = n
  ∧ (∀ i, i < n → i < length prev → syncGroups prev n !! i = prev !! i)
  ∧ (∀ i, i < n → length prev ≤ i → syncGroups prev n !! i = Some []).
Proof.
  rewrite syncGroups_spec. split; [|split].
  - rewrite length_app, length_take, length_replicate. lia.
  - intros i Hi Hlt. rewrite lookup_app_l by (rewrite length_take; lia).
    by rewrite lookup_take_lt.
  - intros i Hi Hge. rewrite lookup_app_r by (rewrite length_take; lia).
    rewrite length_take. apply lookup_replicate_2. lia.
Qed.

(** X5: the group list the effect on [prompts.length] leaves has exactly
    one group per prompt: the groups that were there are kept in place, up
    to the number of prompts, and the missing ones are added empty; a list
    that already has that length is left as it is. *)
Theorem syncGroups_one_group_per_prompt (prev : list (list string)) (n : nat) :
  length (syncGroups prev n) = n
  ∧ (∀ i, i < n → i < length prev → syncGroups prev n !! i = prev !! i)
  ∧ (∀ i, i < n → length prev ≤ i → syncGroups prev n !! i = Some [])
  ∧ (length prev = n → syncGroups prev n = prev).
Proof.
  destruct (syncGroups_lookup prev n) as (Hlen & Hkeep & Hpad).
  split; [done|]. split; [done|]. split; [done|].
  intros <-. rewrite syncGroups_spec, Nat.sub_diag, firstn_all.
  apply app_nil_r.
Qed.

Lemma syncGroups_one_group_per_prompt_witness :
  syncGroups [["a"]; []; ["b"; "c"]] 2 = [["a"]; []]
  ∧ syncGroups [["a"]] 3 !! 2 = Some [].
Proof.
  split.
  - reflexivity.
  - destruct (syncGroups_one_group_per_prompt [["a"]] 3) as (_ & _ & H & _).
    apply H; simpl; lia.
Defined.

Lemma cleanPerPrompt_groups_val (groups : list (list string)) :
  cleanPerPrompt (groups_val groups)
  = (λ g : list string, JStr <$> g) <$> groups.
Proof.
  unfold cleanPerPrompt, groups_val. cbn [toArraySafe].
  change (List.map ?f ?l) with (f <$> l).
  rewrite <- list_fmap_compose. by apply list_fmap_ext.
Qed.

(** X6: once the groups are synced to the prompts, building in zip mode
    drops nothing: there is exactly one job per prompt, job [i] pairing
    prompt [i] with group [i]; and building in cartesian mode gives
    [n × n] jobs for [n] prompts. *)
Theorem onBuildJobs_after_sync (sharedRefs prompts : list string)
    (prev : list (list string)) (pl : JsVal) :
  let groups := syncGroups prev (length prompts) in
  (∃ jobs,
     onBuildJobs ZIP sharedRefs prompts groups pl = Ok jobs
     ∧ length jobs = length prompts
     ∧ ∀ i p g, prompts !! i = Some p → groups !! i = Some g →
         jobs !! i = Some (mkJob i (JStr p) (JStr <$> g) pl))
  ∧ (∃ jobs,
       onBuildJobs CARTESIAN sharedRefs prompts groups pl = Ok jobs
       ∧ length jobs = length prompts * length prompts).
Proof.
  intros groups.
  assert (Hlen : length groups = length prompts).
  { subst groups. rewrite syncGroups_spec, length_app, length_take,
      length_replicate. lia. }
  assert (Hp : js_length (strs prompts) = Ok (Some (length prompts))).
  { unfold strs. cbn. by rewrite length_fmap. }
  assert (HC : length (cleanPerPrompt (groups_val groups)) = length prompts).
  { by rewrite cleanPerPrompt_groups_val, length_fmap. }
  split.
  - eexists. split; [by apply (buildJobs_zip _ _ _ _ _ Hp)|].
    rewrite HC. cbn [math_min loop_bound]. rewrite Nat.min_id. split.
    + by rewrite length_fmap, length_seq.
    + intros i p g Hi Hg. apply lookup_lt_Some in Hi as Hlt.
      rewrite list_lookup_fmap, lookup_seq_lt by done.
      cbn [fmap option_fmap option_map Nat.add]. do 2 f_equal.
      * unfold strs. cbn [js_get]. apply nth_lookup_Some.
        by rewrite list_lookup_fmap, Hi.
      * apply nth_lookup_Some.
        by rewrite cleanPerPrompt_groups_val, list_lookup_fmap, Hg.
  - eexists. split.
    { unfold onBuildJobs.
      by apply (buildJobs_cartesian (JStr CARTESIAN) _ _ _ _ _ eq_refl eq_refl Hp). }
    rewrite HC. cbn [loop_bound].
    destruct (0 <? length prompts) eqn:E.
    + apply cartesian_jobs_length.
    + apply Nat.ltb_ge in E. rewrite cartesian_jobs_length. lia.
Qed.

Lemma onBuildJobs_after_sync_witness :
  ∃ jobs,
    onBuildJobs ZIP [] ["p1"; "p2"] (syncGroups [["a"]] 2) JNull = Ok jobs
    ∧ jobs !! 1 = Some (mkJob 1 (JStr "p2") [] JNull).
Proof.
  destruct (onBuildJobs_after_sync [] ["p1"; "p2"] [["a"]] JNull)
    as ((jobs & Hb & _ & Hat) & _).
  exists jobs. split; [exact Hb|].
  exact (Hat 1 "p2" [] eq_refl eq_refl).
Defined.

Lemma pretty_N_char_digit (y : N) : is_digit (pretty_N_char y) = true.
Proof. unfold pretty_N_char. by repeat case_match. Qed.

Lemma pretty_N_go_digits (x : N) (s : string) :
  all_digits s = true → all_digits (pretty_N_go x s) = true.
Proof.
  revert s. induction (N.lt_wf_0 x) as [x _ IH]; intros s Hs.
  assert (x = 0 ∨ 0 < x)%N as [->|Hx] by lia.
  - by rewrite pretty_N_go_0.
  - rewrite pretty_N_go_step by done. apply IH; [by apply N.div_lt|].
    cbn [all_digits]. by rewrite pretty_N_char_digit, Hs.
Qed.

Lemma pretty_nat_digits (n : nat) : all_digits (pretty n) = true.
Proof.
  unfold pretty, pretty_nat, pretty, pretty_N.
  case_decide; [done|]. by apply pretty_N_go_digits.
Qed.

(** Two digit strings followed by an underscore and a tail are equal only
    if the digit strings and the tails are. *)
Lemma digits_sep_inj (d1 d2 r1 r2 : string) :
  all_digits d1 = true → all_digits d2 = true →
  d1 +:+ "_" +:+ r1 = d2 +:+ "_" +:+ r2 → d1 = d2 ∧ r1 = r2.
Proof.
  revert d2. induction d1 as [|c1 d1 IH]; intros [|c2 d2] H1 H2 Heq;
    cbn in Heq; cbn [all_digits] in H1, H2.
  - by injection Heq.
  - injection Heq as <- _. apply andb_prop in H2 as [H2 _]. discriminate H2.
  - injection Heq as -> _. apply andb_prop in H1 as [H1 _]. discriminate H1.
  - injection Heq as -> Heq.
    apply andb_prop in H1 as [_ H1]. apply andb_prop in H2 as [_ H2].
    destruct (IH d2 H1 H2 Heq) as [-> ->]. done.
Qed.

Lemma placeholder_inj (g g' i i' : nat) :
  "P" +:+ pretty (g + 1) +:+ "_" +:+ pretty (i + 1)
  = "P" +:+ pretty (g' + 1) +:+ "_" +:+ pretty (i' + 1) →
  g = g' ∧ i = i'.
Proof.
  intros Heq. cbn in Heq. injection Heq as Heq.
  apply digits_sep_inj in Heq as [Hg Hi]; try apply pretty_nat_digits.
  apply (inj pretty) in Hg. apply (inj pretty) in Hi. lia.
Qed.

Lemma elem_of_makePlaceholders (g : nat) (count : Z) (id : string) :
  id ∈ makePlaceholders g count ↔
  ∃ i, i < Z.to_nat (Z.max 0 count)
       ∧ id = "P" +:+ pretty (g + 1) +:+ "_" +:+ pretty (i + 1).
Proof.
  unfold makePlaceholders. rewrite list_elem_of_fmap. split.
  - intros (i & -> & Hi). apply elem_of_seq in Hi. exists i. split; [lia|done].
  - intros (i & Hi & ->). exists i. split; [done|]. apply elem_of_seq. lia.
Qed.

(** X7: [makePlaceholders(g, count)] gives [count] ids (none for a count
    below one), pairwise different, none of them empty, so that
    [filter(Boolean)] keeps them all, and no id of one group occurs in the
    placeholders of another group. *)
Theorem makePlaceholders_distinct (g g' : nat) (count count' : Z) :
  length (makePlaceholders g count) = Z.to_nat (Z.max 0 count)
  ∧ NoDup (makePlaceholders g count)
  ∧ List.filter truthy (JStr <$> makePlaceholders g count)
    = JStr <$> makePlaceholders g count
  ∧ (g ≠ g' →
     ∀ id, id ∈ makePlaceholders g count → id ∉ makePlaceholders g' count').
Proof.
  split; [|split; [|split]].
  - unfold makePlaceholders. by rewrite length_fmap, length_seq.
  - unfold makePlaceholders. apply NoDup_fmap_2_strong; [|apply NoDup_seq].
    intros i i' _ _ Heq. by apply placeholder_inj in Heq as [_ ?].
  - unfold makePlaceholders. rewrite <- list_fmap_compose.
    induction (seq 0 _) as [|i l IH]; [done|]. cbn. by rewrite IH.
  - intros Hne id Hin Hin'.
    apply elem_of_makePlaceholders in Hin as (i & _ & ->).
    apply elem_of_makePlaceholders in Hin' as (i' & _ & Heq).
    by apply placeholder_inj in Heq as [? _].
Qed.

Lemma makePlaceholders_distinct_witness :
  makePlaceholders 0 2 = ["P1_1"; "P1_2"]
  ∧ "P1_2" ∉ makePlaceholders 11 12.
Proof.
  split; [reflexivity|].
  destruct (makePlaceholders_distinct 0 11 2 12) as (_ & _ & _ & H).
  apply H; [lia|]. apply list_elem_of_In. simpl. tauto.
Defined.

(** X8: "Sync to Prompts & Fill" with at least one image per group leaves
    one group per prompt and no empty group: a group that had references
    keeps them, and an empty or missing group [i] gets the placeholders of
    group [i]. *)
Theorem syncGroupsToPrompts_fill (prev : list (list string)) (n : nat)
    (globalGroupCount : Z) :
  (1 ≤ globalGroupCount)%Z →
  let out := syncGroupsToPrompts true prev n globalGroupCount in
  length out = n
  ∧ (∀ i g, out !! i = Some g → g ≠ [])
  ∧ (∀ i g, i < n → prev !! i = Some g → g ≠ [] → out !! i = Some g)
  ∧ (∀ i, i < n → prev !! i = None ∨ prev !! i = Some [] →
       out !! i = Some (makePlaceholders i globalGroupCount)).
Proof.
  intros Hc out. subst out. unfold syncGroupsToPrompts.
  destruct (syncGroups_lookup prev n) as (Hlen & Hkeep & Hpad).
  assert (Hne : ∀ i, makePlaceholders i globalGroupCount ≠ []).
  { intros i Hnil. apply (f_equal length) in Hnil.
    unfold makePlaceholders in Hnil.
    rewrite length_fmap, length_seq in Hnil. simpl in Hnil. lia. }
  split; [by rewrite length_imap|]. split; [|split].
  - intros i g. rewrite list_lookup_imap.
    destruct (syncGroups prev n !! i) as [g0|]; [|done]. cbn.
    intros [= <-]. destruct g0; cbn; [apply Hne|done].
  - intros i g Hi Hg Hgne. rewrite list_lookup_imap.
    rewrite Hkeep, Hg by (try done; by eapply lookup_lt_Some). cbn.
    by destruct g.
  - intros i Hi Hprev. rewrite list_lookup_imap.
    destruct Hprev as [Hnone|Hempty].
    + apply lookup_ge_None in Hnone. by rewrite Hpad.
    + by rewrite Hkeep, Hempty by (try done; by eapply lookup_lt_Some).
Qed.

Lemma syncGroupsToPrompts_fill_witness :
  let out := syncGroupsToPrompts true [["A"]; []] 3 2 in
  length out = 3
  ∧ out !! 0 = Some ["A"]
  ∧ out !! 2 = Some ["P3_1"; "P3_2"].
Proof.
  intros out.
  destruct (syncGroupsToPrompts_fill [["A"]; []] 3 2)
    as (Hlen & _ & Hkeep & Hfill); [lia|].
  split; [exact Hlen|]. split.
  - apply Hkeep; [lia|reflexivity|discriminate].
  - apply (Hfill 2); [lia|by left].
Defined.

(** ** The result accumulator and the life cycle *)

Lemma upsert_cases (finished : Handle) (prev : list Handle) :
  (job_id finished ∈ (job_id <$> prev)
   ∧ upsert finished prev
     = (λ x, if String.eqb (job_id x) (job_id finished) then finished else x)
         <$> prev)
  ∨ ((job_id finished ∉ (job_id <$> prev))
     ∧ upsert finished prev = prev ++ [finished]).
Proof.
  unfold upsert.
  destruct (List.find _ prev) as [y|] eqn:Hfind.
  - left. apply find_some in Hfind as [Hin Heq].
    apply String.eqb_eq in Heq. split; [|done].
    apply list_elem_of_fmap. exists y. split; [done|by apply list_elem_of_In].
  - right. split; [|done]. intros Hin.
    apply list_elem_of_fmap in Hin as (y & Hid & Hy).
    apply list_elem_of_In in Hy.
    pose proof (find_none _ _ Hfind y Hy) as Hne. cbn in Hne.
    apply String.eqb_neq in Hne. congruence.
Qed.

Lemma upsert_replace_ids (finished : Handle) (prev : list Handle) :
  job_id <$> ((λ x, if String.eqb (job_id x) (job_id finished)
                    then finished else x) <$> prev)
  = job_id <$> prev.
Proof.
  rewrite <- list_fmap_compose. apply list_fmap_ext. intros _ x _. cbn.
  destruct (String.eqb_spec (job_id x) (job_id finished)); congruence.
Qed.

(** X9: handing a finished handle to the accumulator leaves it in the
    accumulator as the only entry with its id; entries with another id are
    neither added nor removed; ids that were pairwise different stay so; the
    length grows by one if the id is new and not at all otherwise; and
    handing the same handle in twice changes nothing more. *)
Theorem upsert_spec (finished : Handle) (prev : list Handle) :
  finished ∈ upsert finished prev
  ∧ (∀ x, x ∈ upsert finished prev → job_id x = job_id finished →
       x = finished)
  ∧ (∀ x, job_id x ≠ job_id finished →
       (x ∈ upsert finished prev ↔ x ∈ prev))
  ∧ (NoDup (job_id <$> prev) → NoDup (job_id <$> upsert finished prev))
  ∧ length (upsert finished prev)
    = (if bool_decide (job_id finished ∈ (job_id <$> prev))
       then length prev else S (length prev))
  ∧ upsert finished (upsert finished prev) = upsert finished prev.
Proof.
  set (g := λ x, if String.eqb (job_id x) (job_id finished)
                 then finished else x).
  assert (Hgg : ∀ x, g (g x) = g x).
  { intros x. unfold g.
    destruct (String.eqb_spec (job_id x) (job_id finished)) as [E|E].
    - by rewrite String.eqb_refl.
    - by destruct (String.eqb_spec (job_id x) (job_id finished)). }
  destruct (upsert_cases finished prev) as [[Hin ->]|[Hnin ->]]; fold g.
  - apply list_elem_of_fmap in Hin as (y & Hid & Hy).
    split; [|split; [|split; [|split; [|split]]]].
    + apply list_elem_of_fmap. exists y. split; [|done]. unfold g.
      by rewrite <- Hid, String.eqb_refl.
    + intros x Hx Hidx. apply list_elem_of_fmap in Hx as (x0 & -> & _).
      unfold g in *.
      destruct (String.eqb_spec (job_id x0) (job_id finished)); [done|].
      congruence.
    + intros x Hne. rewrite list_elem_of_fmap. split.
      * intros (x0 & -> & Hx0). unfold g in *.
        destruct (String.eqb_spec (job_id x0) (job_id finished)); [done|].
        done.
      * intros Hx. exists x. split; [|done]. unfold g.
        by destruct (String.eqb_spec (job_id x) (job_id finished)).
    + unfold g. by rewrite (upsert_replace_ids finished prev).
    + rewrite length_fmap, bool_decide_eq_true_2; [done|].
      apply list_elem_of_fmap. by exists y.
    + destruct (upsert_cases finished (g <$> prev)) as [[_ ->]|[Hnin _]].
      * fold g. rewrite <- list_fmap_compose. apply list_fmap_ext.
        intros _ x _. apply Hgg.
      * destruct Hnin. unfold g.
        rewrite (upsert_replace_ids finished prev).
        apply list_elem_of_fmap. by exists y.
  - assert (Hg : ∀ x, x ∈ prev → g x = x).
    { intros x Hx. unfold g.
      destruct (String.eqb_spec (job_id x) (job_id finished)) as [E|E];
        [|done].
      destruct Hnin. apply list_elem_of_fmap. by exists x. }
    split; [|split; [|split; [|split; [|split]]]].
    + apply elem_of_app. right. apply list_elem_of_here.
    + intros x Hx Hidx. apply elem_of_app in Hx as [Hx|Hx].
      * destruct Hnin. apply list_elem_of_fmap. by exists x.
      * by apply list_elem_of_singleton in Hx.
    + intros x Hne. rewrite elem_of_app, list_elem_of_singleton.
      split; [|by left]. by intros [?| ->].
    + intros Hnd. rewrite fmap_app. apply NoDup_app. split; [done|].
      split; [|apply NoDup_singleton].
      intros id Hid Hid'. apply list_elem_of_singleton in Hid'. by subst.
    + rewrite length_app, bool_decide_eq_false_2 by done. simpl. lia.
    + destruct (upsert_cases finished (prev ++ [finished])) as [[_ ->]|[Hn _]].
      * fold g. rewrite fmap_app. f_equal.
        -- rewrite <- (list_fmap_id prev) at 2. apply list_fmap_ext.
           intros i x Hx. apply Hg. by eapply list_elem_of_lookup_2.
        -- cbn. unfold g. by rewrite String.eqb_refl.
      * destruct Hn. rewrite fmap_app. apply elem_of_app. right.
        apply list_elem_of_here.
Qed.

Lemma upsert_spec_witness :
  let h := simulateSubmit (mkJob 0 (JStr "p") [] JNull) "aa" 1 in
  let h' := mkHandle "job_aa" succeeded (job h) 1 (Some 9%Z) (Some "OK:0") None in
  upsert h' [h] = [h'] ∧ NoDup (job_id <$> upsert h' [h]).
Proof.
  intros h h'.
  destruct (upsert_spec h' [h]) as (_ & _ & _ & Hnd & _).
  split; [reflexivity|]. apply Hnd. cbn. apply NoDup_singleton.
Defined.







(** ** The promise pool under every schedule *)

Module PoolExtra.
Import Pool PoolSpec.

Section WithPool.
Context {T R : Type} (items : list T) (k : Z) (onProgress : bool).

Implicit Types (st : PoolState T R) (ev : Event R) (evs : list (Event R)).

Local Ltac pool_arith :=
  rewrite ?PoolTheory.queued_values_app, ?PoolTheory.queued_values_then,
    ?PoolTheory.queued_values_finally, ?PoolTheory.queued_values_nil,
    ?length_app in *;
  cbn [length] in *; lia.

Lemma queued_values_rejected (rest : list (Reaction R)) :
  queued_values (ThenReaction Rejected :: rest) = queued_values rest.
Proof. done. Qed.

Lemma pump_loop_winv (rej fuel : nat) st :
  length (q st) - i st ≤ fuel →
  i st ≤ length items → q st = items →
  calls st = take (i st) items →
  inFlight st = Z.of_nat (length (running st) + length (microtasks st)) →
  (inFlight st ≤ k)%Z →
  length (res st) + length (running st)
  + length (queued_values (microtasks st)) + rej = i st →
  (resolved st = true → length (res st) = length items) →
  WInv items k rej (pump_loop k fuel st).
Proof.
  revert st. induction fuel as [|fuel IH];
    intros st Hfuel Hle Hq Hcalls Hfl Hcap Hcnt Hfull.
  - cbn [pump_loop]. constructor; try done. left. rewrite Hq in *. lia.
  - cbn [pump_loop].
    destruct (inFlight st <? k)%Z eqn:Hk; cycle 1.
    { constructor; try done. right. by apply Z.ltb_ge in Hk. }
    apply Z.ltb_lt in Hk.
    destruct (i st <? length (q st)) eqn:Hi; cbn [andb]; cycle 1.
    { constructor; try done. left. apply Nat.ltb_ge in Hi. rewrite Hq in *. lia. }
    apply Nat.ltb_lt in Hi.
    destruct (lookup_lt_is_Some_2 (q st) (i st) Hi) as [item Hitem].
    rewrite Hitem. rewrite Hq in Hi, Hitem.
    apply IH; cbn [q res inFlight i resolved calls running microtasks];
      try done; try pool_arith.
    rewrite Hcalls. symmetry. by apply take_S_r.
Qed.

Lemma pump_winv (rej : nat) st :
  i st ≤ length items → q st = items →
  calls st = take (i st) items →
  inFlight st = Z.of_nat (length (running st) + length (microtasks st)) →
  (inFlight st ≤ k)%Z →
  length (res st) + length (running st)
  + length (queued_values (microtasks st)) + rej = i st →
  (resolved st = true → length (res st) = length items) →
  WInv items k rej (pump k st).
Proof. intros. by apply pump_loop_winv. Qed.

Lemma start_winv :
  (0 ≤ k)%Z → WInv items k 0 (runWithConcurrency (R:=R) items k).
Proof.
  intros Hk. unfold runWithConcurrency.
  apply pump_winv; cbn; try done; lia.
Qed.

Lemma step_winv (rej : nat) ev st st' :
  WInv items k rej st →
  step items k onProgress ev st = Some st' →
  WInv items k (rej + rejections [ev]) st'.
Proof.
  intros [Hq Hle Hcalls Hfl Hcap Hcnt Hfull Hsat] Hstep.
  destruct ev as [n o|]; cbn [step] in Hstep.
  - destruct (running st !! n) as [x|] eqn:Hn; [|done].
    injection Hstep as <-.
    assert (Hlen : length (delete n (running st)) = length (running st) - 1).
    { apply length_delete. by eexists. }
    apply lookup_lt_Some in Hn.
    destruct o as [r|]; cbn [rejections List.filter length];
      constructor; cbn [q res inFlight i resolved calls running microtasks];
      rewrite ?Hlen, ?PoolTheory.queued_values_app, ?queued_values_rejected,
        ?PoolTheory.queued_values_then, ?PoolTheory.queued_values_nil;
      try done; try pool_arith.
  - replace (rej + rejections [Tick (R:=R)]) with rej by (cbn; lia).
    destruct (microtasks st) as [|m rest] eqn:Hms; [done|].
    destruct m as [[r|]|].
    + injection Hstep as <-.
      constructor; cbn [q res inFlight i resolved calls running microtasks];
        try done; try pool_arith.
      intros Hr. specialize (Hfull Hr). pool_arith.
    + injection Hstep as <-. rewrite queued_values_rejected in Hcnt.
      constructor; cbn [q res inFlight i resolved calls running microtasks];
        try done; try pool_arith.
    + assert (Hres_le : length (res st) ≤ i st) by pool_arith.
      cbn in Hstep.
      destruct (length (res st) =? length items) eqn:Hfin.
      * apply Nat.eqb_eq in Hfin. injection Hstep as <-.
        constructor; cbn [q res inFlight i resolved calls running microtasks];
          try done; try pool_arith.
        left. cbn. rewrite Hq. lia.
      * apply Nat.eqb_neq in Hfin. injection Hstep as <-.
        pose (st1 := mkPool (q st) (res st) (inFlight st - 1)%Z (i st)
                       (resolved st) (calls st) (running st) rest (progress st)).
        change (WInv items k rej (pump k st1)).
        apply pump_winv;
          cbn [st1 q res inFlight i resolved calls running microtasks];
          try done; try pool_arith.
Qed.

Lemma rejections_cons ev evs :
  rejections (ev :: evs) = rejections [ev] + rejections evs.
Proof. unfold rejections. cbn. by destruct ev as [n [r|]|]. Qed.

Lemma run_winv (rej : nat) evs st st' :
  WInv items k rej st →
  run items k onProgress evs st = Some st' →
  WInv items k (rej + rejections evs) st'.
Proof.
  revert rej st. induction evs as [|ev evs IH]; intros rej st HI Hrun.
  - injection Hrun as <-. unfold rejections. cbn. by rewrite Nat.add_0_r.
  - cbn [run] in Hrun.
    destruct (step items k onProgress ev st) as [st1|] eqn:Hstep; [|done].
    rewrite rejections_cons, Nat.add_assoc.
    apply (IH _ st1); [|done]. by eapply step_winv.
Qed.

Lemma pump_loop_progress (fuel : nat) st :
  progress (pump_loop k fuel st) = progress st.
Proof.
  revert st. induction fuel as [|fuel IH]; intros st; [done|].
  cbn [pump_loop].
  destruct (_ && _); [|done]. destruct (q st !! i st); [|done].
  by rewrite IH.
Qed.

Lemma step_progress ev st st' :
  progress st = (if onProgress then res st else []) →
  step items k onProgress ev st = Some st' →
  progress st' = (if onProgress then res st' else []).
Proof.
  intros Hp Hstep. destruct ev as [n o|]; cbn [step] in Hstep.
  - destruct (running st !! n); [|done]. by injection Hstep as <-.
  - destruct (microtasks st) as [|m rest]; [done|].
    destruct m as [[r|]|].
    + injection Hstep as <-. cbn. rewrite Hp. by destruct onProgress.
    + by injection Hstep as <-.
    + cbn in Hstep. destruct (_ =? _); injection Hstep as <-; [done|].
      unfold pump. rewrite pump_loop_progress.
      by destruct (PoolTheory.pump_loop_res k (length (q st) - i st)
        (mkPool (q st) (res st) (inFlight st - 1)%Z (i st) (resolved st)
           (calls st) (running st) rest (progress st))) as [-> _].
Qed.

Lemma pump_loop_started (fuel c : nat) :
  c ≤ length items → length items - c ≤ fuel →
  pump_loop k fuel (started (R:=R) items c)
  = started items (Nat.max c (Nat.min (length items) (Z.to_nat k))).
Proof.
  revert c. induction fuel as [|fuel IH]; intros c Hc Hfuel.
  - cbn [pump_loop]. f_equal. lia.
  - unfold started at 1.
    cbn [pump_loop q res inFlight i resolved calls running microtasks progress].
    destruct (Z.of_nat c <? k)%Z eqn:Hk; cycle 1.
    { apply Z.ltb_ge in Hk. cbn [andb].
      replace (Nat.max c (Nat.min (length items) (Z.to_nat k))) with c by lia.
      done. }
    apply Z.ltb_lt in Hk.
    destruct (c <? length items) eqn:Hi; cbn [andb]; cycle 1.
    { apply Nat.ltb_ge in Hi.
      replace (Nat.max c (Nat.min (length items) (Z.to_nat k))) with c by lia.
      done. }
    apply Nat.ltb_lt in Hi.
    destruct (lookup_lt_is_Some_2 items c Hi) as [item Hitem].
    rewrite Hitem, <- (take_S_r _ _ _ Hitem).
    replace (Z.of_nat c + 1)%Z with (Z.of_nat (S c)) by lia.
    change (pump_loop k fuel (started (R:=R) items (S c))
            = started items (Nat.max c (Nat.min (length items) (Z.to_nat k)))).
    rewrite IH by lia. f_equal. lia.
Qed.

End WithPool.

(** X11: under every schedule, with [k ≥ 0]: the calls pending never exceed
    [k], the worker has been called on a prefix of [items], and the results
    pushed plus the rejections never exceed the items started.  So once a
    single worker promise has been rejected, [res] stays short of
    [len(items)] and [resolve] is never called: the promise of
    [runWithConcurrency] stays pending for good. *)
Theorem runWithConcurrency_rejection_blocks {T R : Type} (items : list T)
    (k : Z) (onProgress : bool) (evs : list (Event R)) (st : PoolState T R) :
  (0 ≤ k)%Z →
  run items k onProgress evs (runWithConcurrency items k) = Some st →
  (Z.of_nat (length (running st)) ≤ inFlight st ≤ k)%Z
  ∧ calls st = take (i st) items
  ∧ length (res st) + rejections evs ≤ i st ≤ length items
  ∧ (1 ≤ rejections evs →
     resolved st = false ∧ length (res st) < length items).
Proof.
  intros Hk Hrun.
  pose proof (run_winv items k onProgress 0 _ _ _ (start_winv items k Hk) Hrun)
    as [Hq Hle Hcalls Hfl Hcap Hcnt Hfull Hsat].
  cbn [Nat.add] in Hcnt.
  split; [lia|]. split; [done|]. split; [lia|].
  intros Hrej. split; [|lia].
  destruct (resolved st); [|done]. specialize (Hfull eq_refl). lia.
Qed.

Lemma runWithConcurrency_rejection_blocks_witness :
  ∃ st : PoolState string nat,
    run ["a"; "b"] 1 false
      [Settle 0 Rejected; Tick; Tick; Settle 0 (Fulfilled 7); Tick; Tick]
      (runWithConcurrency ["a"; "b"] 1) = Some st
    ∧ running st = [] ∧ microtasks st = []
    ∧ res st = [7]
    ∧ resolved st = false.
Proof.
  eexists. split; [vm_compute; reflexivity|].
  split; [reflexivity|]. split; [reflexivity|]. split; [reflexivity|].
  match goal with
  | |- resolved ?s = _ =>
      destruct (runWithConcurrency_rejection_blocks ["a"; "b"] 1 false
                  [Settle 0 Rejected; Tick; Tick; Settle 0 (Fulfilled 7);
                   Tick; Tick] s) as (_ & _ & _ & H)
  end.
  - lia.
  - vm_compute. reflexivity.
  - apply H. vm_compute. lia.
Defined.

(** X12: the pool admits work as a sliding window.  Under every schedule,
    with [k ≥ 0], as long as an item has not been handed to the worker
    exactly [k] calls are under way (pending, or settled with their
    reactions still queued): a slot freed by a [finally] reaction is
    refilled in the same step. *)
Theorem runWithConcurrency_sliding_window {T R : Type} (items : list T)
    (k : Z) (onProgress : bool) (evs : list (Event R)) (st : PoolState T R) :
  (0 ≤ k)%Z →
  run items k onProgress evs (runWithConcurrency items k) = Some st →
  i st < length items →
  inFlight st = k
  ∧ Z.of_nat (length (running st) + length (microtasks st)) = k.
Proof.
  intros Hk Hrun Hi.
  pose proof (run_winv items k onProgress 0 _ _ _ (start_winv items k Hk) Hrun)
    as [Hq Hle Hcalls Hfl Hcap Hcnt Hfull Hsat].
  destruct Hsat as [Hs|Hs]; [rewrite Hq in Hs; lia|]. lia.
Qed.

Lemma runWithConcurrency_sliding_window_witness :
  ∃ st : PoolState string nat,
    run ["a"; "b"; "c"; "d"] 2 false [Settle 1 (Fulfilled 5); Tick; Tick]
      (runWithConcurrency ["a"; "b"; "c"; "d"] 2) = Some st
    ∧ calls st = ["a"; "b"; "c"]
    ∧ inFlight st = 2%Z.
Proof.
  eexists. split; [vm_compute; reflexivity|]. split; [reflexivity|].
  match goal with
  | |- inFlight ?s = _ =>
      destruct (runWithConcurrency_sliding_window ["a"; "b"; "c"; "d"] 2 false
                  [Settle 1 (Fulfilled 5); Tick; Tick] s) as [H _]
  end.
  - lia.
  - vm_compute. reflexivity.
  - vm_compute. lia.
  - exact H.
Defined.

(** X13: [runWithConcurrency] starts by handing the first [min(k, n)] of
    its [n] items to the worker, in order, before anything settles: all of
    them when [k ≥ n], and none when [k ≤ 0], in which case no event is
    ever enabled and the returned promise stays pending. *)
Theorem runWithConcurrency_start {T R : Type} (items : list T) (k : Z)
    (onProgress : bool) :
  let m := Nat.min (length items) (Z.to_nat k) in
  runWithConcurrency (R:=R) items k = started items m
  ∧ ((Z.of_nat (length items) ≤ k)%Z →
     calls (runWithConcurrency (R:=R) items k) = items
     ∧ running (runWithConcurrency (R:=R) items k) = items)
  ∧ ((k ≤ 0)%Z →
     calls (runWithConcurrency (R:=R) items k) = []
     ∧ resolved (runWithConcurrency (R:=R) items k) = false
     ∧ ∀ ev : Event R,
         step items k onProgress ev (runWithConcurrency items k) = None).
Proof.
  intros m.
  assert (E : runWithConcurrency (R:=R) items k = started items m).
  { unfold runWithConcurrency, pump. cbn [q i].
    change (mkPool items [] 0 0 false [] [] [] [])
      with (started (R:=R) items 0).
    rewrite pump_loop_started by lia. f_equal. }
  split; [exact E|]. rewrite E. split.
  - intros Hk. assert (m = length items) as -> by lia.
    cbn. by rewrite firstn_all.
  - intros Hk. assert (m = 0) as -> by lia. cbn.
    split; [done|]. split; [done|]. by intros [n o|].
Qed.

Lemma runWithConcurrency_start_witness :
  calls (runWithConcurrency (R:=nat) ["a"; "b"] 5) = ["a"; "b"]
  ∧ calls (runWithConcurrency (R:=nat) ["a"; "b"] 0) = [].
Proof.
  destruct (runWithConcurrency_start (R:=nat) ["a"; "b"] 5 false)
    as (_ & Hall & _).
  destruct (runWithConcurrency_start (R:=nat) ["a"; "b"] 0 false)
    as (_ & _ & Hnone).
  split.
  - apply Hall. simpl. lia.
  - apply Hnone. lia.
Defined.

(** X14: when [onProgress] is passed it has been called, in every
    reachable state, exactly once per result pushed and in the same order
    ([progress] equals [res]); when it is not passed nothing is reported. *)
Theorem runWithConcurrency_progress {T R : Type} (items : list T) (k : Z)
    (onProgress : bool) (evs : list (Event R)) (st : PoolState T R) :
  run items k onProgress evs (runWithConcurrency items k) = Some st →
  progress st = (if onProgress then res st else []).
Proof.
  assert (H0 : progress (runWithConcurrency (R:=R) items k)
               = (if onProgress
                  then res (runWithConcurrency (R:=R) items k) else [])).
  { unfold runWithConcurrency, pump. rewrite pump_loop_progress.
    destruct (PoolTheory.pump_loop_res (R:=R) k
                (length (q (mkPool (R:=R) items [] 0 0 false [] [] [] []))
                 - i (mkPool (R:=R) items [] 0 0 false [] [] [] []))
                (mkPool items [] 0 0 false [] [] [] [])) as [-> _].
    by destruct onProgress. }
  revert H0. generalize (runWithConcurrency (R:=R) items k).
  induction evs as [|ev evs IH]; intros s Hs Hrun.
  - by injection Hrun as <-.
  - cbn [run] in Hrun.
    destruct (step items k onProgress ev s) as [s1|] eqn:Hstep; [|done].
    apply (IH s1); [|done]. by eapply step_progress.
Qed.

Lemma runWithConcurrency_progress_witness :
  ∃ st : PoolState string nat,
    run ["a"; "b"] 2 true
      [Settle 1 (Fulfilled 2); Settle 0 (Fulfilled 1); Tick; Tick]
      (runWithConcurrency ["a"; "b"] 2) = Some st
    ∧ progress st = [2; 1].
Proof.
  eexists. split; [vm_compute; reflexivity|].
  match goal with
  | |- progress ?s = _ =>
      rewrite (runWithConcurrency_progress ["a"; "b"] 2 true
                 [Settle 1 (Fulfilled 2); Settle 0 (Fulfilled 1); Tick; Tick] s)
  end.
  - reflexivity.
  - vm_compute. reflexivity.
Defined.

End PoolExtra.

(** ** The pairing engine: what a mode reads and what it copies *)

(** X15: each mode reads only its own reference input.  One-to-many never
    looks at the per-prompt groups, zip never looks at the shared list, and
    cartesian looks at the shared list only when no group is supplied;
    this holds for every value passed, thrown errors included. *)
Theorem buildJobs_reads_own_refs_only (sh sh' P pp pp' pl : JsVal) :
  buildJobs (mkConfig (JStr ONE_TO_MANY) sh P pp pl)
  = buildJobs (mkConfig (JStr ONE_TO_MANY) sh P pp' pl)
  ∧ buildJobs (mkConfig (JStr ZIP) sh P pp pl)
    = buildJobs (mkConfig (JStr ZIP) sh' P pp pl)
  ∧ (cleanPerPrompt pp ≠ [] →
     buildJobs (mkConfig (JStr CARTESIAN) sh P pp pl)
     = buildJobs (mkConfig (JStr CARTESIAN) sh' P pp pl))
  ∧ (cleanPerPrompt pp = [] → cleanPerPrompt pp' = [] →
     buildJobs (mkConfig (JStr CARTESIAN) sh P pp pl)
     = buildJobs (mkConfig (JStr CARTESIAN) sh P pp' pl)).
Proof.
  split; [done|]. split; [done|]. split.
  - intros Hne. unfold buildJobs.
    cbn [mode sharedRefs prompts perPromptRefs extraPayload].
    change (strict_eq_str (JStr CARTESIAN) ONE_TO_MANY) with false.
    change (strict_eq_str (JStr CARTESIAN) ZIP) with false. cbv iota.
    fold (cleanPerPrompt pp).
    destruct (js_length P) as [plen|e]; [|done].
    by destruct (cleanPerPrompt pp).
  - intros He He'. unfold buildJobs.
    cbn [mode sharedRefs prompts perPromptRefs extraPayload].
    change (strict_eq_str (JStr CARTESIAN) ONE_TO_MANY) with false.
    change (strict_eq_str (JStr CARTESIAN) ZIP) with false. cbv iota.
    fold (cleanPerPrompt pp). fold (cleanPerPrompt pp').
    by rewrite He, He'.
Qed.

Lemma buildJobs_reads_own_refs_only_witness :
  buildJobs (mkConfig (JStr CARTESIAN) (strs ["S"]) (strs ["a"])
               (JArr [strs ["x"]]) JNull)
  = buildJobs (mkConfig (JStr CARTESIAN) JUndefined (strs ["a"])
                 (JArr [strs ["x"]]) JNull)
  ∧ buildJobs (mkConfig (JStr CARTESIAN) (strs ["S"]) (strs ["a"])
                 JUndefined JNull)
    = buildJobs (mkConfig (JStr CARTESIAN) (strs ["S"]) (strs ["a"])
                   (JArr []) JNull).
Proof.
  destruct (buildJobs_reads_own_refs_only (strs ["S"]) JUndefined (strs ["a"])
              (JArr [strs ["x"]]) JUndefined JNull) as (_ & _ & H & _).
  destruct (buildJobs_reads_own_refs_only (strs ["S"]) JUndefined (strs ["a"])
              JUndefined (JArr []) JNull) as (_ & _ & _ & H').
  split; [by apply H|by apply H'].
Defined.

Lemma cartesian_jobs_S (n m : nat) (pf : nat → JsVal)
    (rf : nat → list JsVal) (pl : JsVal) :
  cartesian_jobs (S n) m pf rf pl
  = cartesian_jobs n m pf rf pl
    ++ ((λ g, mkJob (n * m + g) (pf n) (rf g) pl) <$> seq 0 m).
Proof.
  pose proof (cartesian_loops (S n) m pf rf pl) as HS.
  rewrite for_range_snoc, cartesian_loops, inner_loop_push_next in HS.
  cbn [fst snd Nat.add] in HS. by injection HS as _ <-.
Qed.

Lemma filter_length_fmap {A B : Type} (p : B → bool) (h : A → B) (l : list A) :
  length (List.filter p (h <$> l)) = length (List.filter (λ x, p (h x)) l).
Proof.
  induction l as [|x l IH]; [done|]. cbn. destruct (p (h x)); cbn; by rewrite IH.
Qed.

Lemma count_text_only_cartesian (n : nat) (pf : nat → JsVal)
    (groups : list (list JsVal)) (pl : JsVal) :
  count_text_only
    (cartesian_jobs n (length groups) pf (λ g, nth g groups []) pl)
  = n * length (List.filter (λ g, length g =? 0) groups).
Proof.
  unfold count_text_only. induction n as [|n IH]; [done|].
  rewrite cartesian_jobs_S, List.filter_app, length_app, IH.
  rewrite filter_length_fmap. cbn [refs].
  rewrite <- (filter_length_fmap (λ g, length g =? 0)
                (λ g, nth g groups [])).
  assert ((λ g, nth g groups []) <$> seq 0 (length groups) = groups) as ->;
    [|lia].
  apply list_eq. intros g. rewrite list_lookup_fmap.
  destruct (groups !! g) as [x|] eqn:Hg.
  - rewrite lookup_seq_lt by (by eapply lookup_lt_Some). cbn.
    by rewrite (nth_lookup_Some _ _ _ _ Hg).
  - rewrite lookup_seq_ge; [done|]. by apply lookup_ge_None.
Qed.

(** X16: whatever the mode, every job of a built list carries the payload
    that was passed, its prompt is the entry of the prompts at some position,
    and in cartesian mode with groups the text-only jobs number [len(P)]
    times the number of empty groups (a group that is not a list counting
    as empty), as the unit test of the explicit empty group expects. *)
Theorem buildJobs_payload_and_text_only (cfg : Config) (jobs : list Job) :
  buildJobs cfg = Ok jobs →
  (∀ j, j ∈ jobs → payload j = extraPayload cfg)
  ∧ (∀ j, j ∈ jobs → ∃ i, prompt j = js_get (prompts cfg) i)
  ∧ (∀ P G, mode cfg = JStr CARTESIAN → prompts cfg = JArr P →
       perPromptRefs cfg = JArr G → G ≠ [] →
       count_text_only jobs
       = length P
         * length (List.filter (λ g, length (toArraySafe g []) =? 0) G)).
Proof.
  destruct cfg as [m sh P pp pl]. cbn [extraPayload prompts mode perPromptRefs].
  intros Hb.
  assert (Hcart : ∀ n c pf rf j,
            j ∈ cartesian_jobs n c pf rf pl →
            payload j = pl ∧ ∃ i, prompt j = pf i).
  { intros n c pf rf j Hj. unfold cartesian_jobs in Hj.
    apply list_elem_of_fmap in Hj as (x & -> & _). cbn. eauto. }
  assert (Hall : ∀ j, j ∈ jobs → payload j = pl ∧ ∃ i, prompt j = js_get P i).
  { destruct (strict_eq_str m ONE_TO_MANY) eqn:H1.
    { destruct m as [| | | |t|]; try discriminate H1.
      apply String.eqb_eq in H1 as ->.
      destruct P as [| | | | |ps]; try discriminate.
      rewrite buildJobs_one_to_many in Hb. injection Hb as <-.
      intros j Hj. apply elem_of_lookup_imap in Hj as (i & p & -> & Hp).
      cbn. split; [done|]. exists i. by rewrite (nth_lookup_Some _ _ _ _ Hp). }
    destruct (js_length P) as [plen|e] eqn:Hlen.
    2:{ unfold buildJobs in Hb. cbn [mode prompts] in Hb.
        rewrite H1, Hlen in Hb. by destruct (strict_eq_str m ZIP). }
    destruct (strict_eq_str m ZIP) eqn:H2.
    { destruct m as [| | | |t|]; try discriminate H2.
      apply String.eqb_eq in H2 as ->.
      rewrite (buildJobs_zip _ _ _ _ _ Hlen) in Hb. injection Hb as <-.
      intros j Hj. apply list_elem_of_fmap in Hj as (i & -> & _). cbn. eauto. }
    rewrite (buildJobs_cartesian _ _ _ _ _ _ H1 H2 Hlen) in Hb.
    injection Hb as <-. intros j Hj.
    destruct (0 <? _); by apply Hcart in Hj. }
  split; [intros j Hj; by apply Hall|]. split; [intros j Hj; by apply Hall|].
  intros P0 G -> -> -> HG.
  rewrite (buildJobs_cartesian (JStr CARTESIAN) sh (JArr P0) (JArr G) pl
             (Some (length P0)) eq_refl eq_refl eq_refl) in Hb.
  injection Hb as <-.
  assert (Hlen : length (cleanPerPrompt (JArr G)) = length G)
    by apply length_map.
  destruct (0 <? length (cleanPerPrompt (JArr G))) eqn:E.
  2:{ apply Nat.ltb_ge in E. destruct G; [done|]. simpl in *. lia. }
  cbn [loop_bound]. rewrite count_text_only_cartesian.
  f_equal. unfold cleanPerPrompt. cbn [toArraySafe].
  change (List.map ?f ?l) with (f <$> l). apply filter_length_fmap.
Qed.

Lemma buildJobs_payload_and_text_only_witness :
  ∃ jobs,
    buildJobs (mkConfig (JStr CARTESIAN) JUndefined (strs ["p1"; "p2"; "p3"])
                 (JArr [JArr []; strs ["B"; "C"]; strs ["D"]]) (JNum 7))
    = Ok jobs
    ∧ count_text_only jobs = 3
    ∧ ∀ j, j ∈ jobs → payload j = JNum 7.
Proof.
  eexists. split; [reflexivity|].
  match goal with
  | |- count_text_only ?js = _ ∧ _ =>
      destruct (buildJobs_payload_and_text_only
                  (mkConfig (JStr CARTESIAN) JUndefined
                     (strs ["p1"; "p2"; "p3"])
                     (JArr [JArr []; strs ["B"; "C"]; strs ["D"]]) (JNum 7))
                  js eq_refl) as (Hpl & _ & Hcount)
  end.
  split; [|exact Hpl].
  rewrite (Hcount _ _ eq_refl eq_refl eq_refl); [reflexivity|discriminate].
Defined.

(** ** The CSV export *)

Lemma string_app_assoc (a b c : string) : (a +:+ b) +:+ c = a +:+ (b +:+ c).
Proof.
  induction a as [|x a IH]; [done|].
  change (String x ((a +:+ b) +:+ c) = String x (a +:+ (b +:+ c))).
  by f_equal.
Qed.

Lemma string_app_nil_r (a : string) : a +:+ "" = a.
Proof.
  induction a as [|x a IH]; [done|].
  change (String x (a +:+ "") = String x a). by f_equal.
Qed.

Lemma string_app_cons (c : Ascii.ascii) (s t : string) :
  String c s +:+ t = String c (s +:+ t).
Proof. reflexivity. Qed.

Lemma string_app_nil_l (s : string) : "" +:+ s = s.
Proof. reflexivity. Qed.

Lemma str1_app (c : Ascii.ascii) (s : string) : str1 c +:+ s = String c s.
Proof. reflexivity. Qed.

(** Reading an escaped cell body up to its closing quote gives the cell
    back. *)
Lemma parse_cell_body (x rest cell : string) (row : list string)
    (rows : list (list string)) :
  parse_csv_from (escape_quotes x +:+ str1 dquote +:+ rest) InQuoted cell
    row rows
  = parse_csv_from rest QuoteSeen (cell +:+ x) row rows.
Proof.
  revert cell. induction x as [|c x IH]; intros cell.
  - cbn [escape_quotes]. rewrite string_app_nil_l, str1_app, string_app_nil_r.
    reflexivity.
  - cbn [escape_quotes]. destruct (Ascii.eqb c dquote) eqn:E.
    + rewrite !string_app_cons. cbn [parse_csv_from]. rewrite E, IH.
      by rewrite string_app_assoc, str1_app.
    + rewrite !string_app_cons. cbn [parse_csv_from]. rewrite E, IH.
      by rewrite string_app_assoc, str1_app.
Qed.

Lemma parse_cell (x rest : string) (row : list string)
    (rows : list (list string)) :
  parse_csv_from (csv_cell x +:+ rest) CellStart "" row rows
  = parse_csv_from rest QuoteSeen x row rows.
Proof.
  unfold csv_cell. rewrite !string_app_assoc, str1_app.
  cbn [parse_csv_from]. change (Ascii.eqb dquote dquote) with true. cbv iota.
  by rewrite parse_cell_body, string_app_nil_l.
Qed.

Lemma csv_row_cons (x y : string) (r : list string) :
  csv_row (x :: y :: r) = csv_cell x +:+ str1 comma +:+ csv_row (y :: r).
Proof. reflexivity. Qed.

Lemma csv_text_cons (r r2 : list string) (rs : list (list string)) :
  csv_text (r :: r2 :: rs)
  = csv_row r +:+ str1 newline +:+ csv_text (r2 :: rs).
Proof. reflexivity. Qed.

Lemma last_default_irrel {A : Type} (r : list A) (x y : A) :
  r ≠ [] → List.last r x = List.last r y.
Proof.
  induction r as [|z r IH]; intros Hr; [done|].
  destruct r as [|w r]; [done|].
  change (List.last (w :: r) x = List.last (w :: r) y). by apply IH.
Qed.

Lemma last_cons_default {A : Type} (y : A) (r : list A) (x : A) :
  List.last (y :: r) x = List.last r y.
Proof.
  destruct r as [|z r]; [done|].
  change (List.last (z :: r) x = List.last (z :: r) y).
  by apply last_default_irrel.
Qed.

Lemma removelast_last_cons {A : Type} (x : A) (r : list A) :
  removelast (x :: r) ++ [List.last r x] = x :: r.
Proof.
  rewrite <- (last_cons_default x r x). symmetry.
  by apply app_removelast_last.
Qed.

(** Reading a row of at least one cell leaves the reader after the closing
    quote of its last cell. *)
Lemma parse_row (x : string) (r : list string) (rest : string)
    (row : list string) (rows : list (list string)) :
  parse_csv_from (csv_row (x :: r) +:+ rest) CellStart "" row rows
  = parse_csv_from rest QuoteSeen (List.last r x)
      (row ++ removelast (x :: r)) rows.
Proof.
  revert x row. induction r as [|y r IH]; intros x row.
  - change (csv_row [x]) with (csv_cell x).
    cbn [removelast List.last]. by rewrite parse_cell, app_nil_r.
  - rewrite csv_row_cons, !string_app_assoc, parse_cell, str1_app.
    cbn [parse_csv_from].
    change (Ascii.eqb comma dquote) with false.
    change (Ascii.eqb comma comma) with true. cbv iota.
    rewrite IH, last_cons_default.
    change (removelast (x :: y :: r)) with (x :: removelast (y :: r)).
    by rewrite <- app_assoc.
Qed.

Lemma parse_rows (r : list string) (rs : list (list string))
    (rows : list (list string)) :
  r ≠ [] → Forall (λ r, r ≠ []) rs →
  parse_csv_from (csv_text (r :: rs)) CellStart "" [] rows
  = Some (rows ++ r :: rs).
Proof.
  revert r rows. induction rs as [|r2 rs IH]; intros r rows Hr Hrs.
  - destruct r as [|x r]; [done|].
    change (csv_text [x :: r]) with (csv_row (x :: r)).
    rewrite <- (string_app_nil_r (csv_row (x :: r))), parse_row.
    cbn [parse_csv_from app].
    by rewrite removelast_last_cons.
  - destruct r as [|x r]; [done|].
    apply Forall_cons in Hrs as [Hr2 Hrs].
    rewrite csv_text_cons, parse_row, str1_app.
    cbn [parse_csv_from app].
    change (Ascii.eqb newline dquote) with false.
    change (Ascii.eqb newline comma) with false.
    change (Ascii.eqb newline newline) with true. cbv iota.
    rewrite IH by done.
    by rewrite removelast_last_cons, <- app_assoc.
Qed.

Lemma parse_csv_text (rows : list (list string)) :
  Forall (λ r, r ≠ []) rows → parse_csv (csv_text rows) = Some rows.
Proof.
  intros Hrows. destruct rows as [|r rs]; [done|].
  apply Forall_cons in Hrows as [Hr Hrs].
  unfold parse_csv.
  destruct (csv_text (r :: rs)) eqn:E.
  - exfalso. destruct r as [|x r]; [done|].
    unfold csv_text, csv_row, csv_cell in E.
    destruct rs, r; discriminate E.
  - rewrite <- E. by apply (parse_rows r rs []).
Qed.

(** X17: the text [exportCSV] writes can be read back.  For every table
    whose rows have at least one cell, whatever the cells contain (commas,
    quotes, line breaks), reading the quoted, comma- and newline-joined
    text gives exactly the rows and cells that were written. *)
Theorem csv_text_round_trip (rows : list (list string)) :
  Forall (λ r, r ≠ []) rows → parse_csv (csv_text rows) = Some rows.
Proof. apply parse_csv_text. Qed.

Lemma csv_text_round_trip_witness :
  parse_csv (csv_text [["a,b"; str1 dquote +:+ "x" +:+ str1 dquote];
                       ["two" +:+ str1 newline +:+ "lines"; ""]])
  = Some [["a,b"; str1 dquote +:+ "x" +:+ str1 dquote];
          ["two" +:+ str1 newline +:+ "lines"; ""]].
Proof.
  apply csv_text_round_trip. repeat constructor; discriminate.
Defined.

Lemma replace_newlines_clean (s : string) :
  has_char newline (replace_newlines s) = false.
Proof.
  induction s as [|c s IH]; [done|]. cbn [replace_newlines has_char].
  rewrite IH, orb_false_r. by destruct (Ascii.eqb c newline) eqn:E.
Qed.

Section ExportFacts.
Variable toISOString : Z → option string.

Lemma export_row_cells (it : Handle) :
  exportable toISOString it → export_row toISOString it
                  = Exported (export_cells toISOString it).
Proof.
  intros ([p Hp] & [s Hs] & Hfin). unfold export_row, export_cells.
  rewrite Hp. unfold prompt_cell.
  assert (Hprompt :
    (if truthy (JStr p)
     then Exported (A:=string) (replace_newlines p) else Exported "")
    = Exported (replace_newlines p)).
  { cbn. by destruct p. }
  rewrite Hprompt. cbn [exported_bind time_cell time_text].
  rewrite Hs. cbn [or_empty].
  assert (Hf : time_cell toISOString (finish_ts it)
               = Exported (time_text toISOString (finish_ts it))).
  { unfold time_cell, time_text. destruct (finish_ts it) as [t|]; [|done].
    destruct (t =? 0)%Z; [done|]. by destruct (Hfin t eq_refl) as [s' ->]. }
  destruct (submit_ts it =? 0)%Z; cbn [exported_bind]; by rewrite Hf.
Qed.

Lemma exported_rows_cells (l : list Handle) :
  (∀ it, it ∈ l → exportable toISOString it) →
  exported_rows (export_row toISOString) l
  = Exported (export_cells toISOString <$> l).
Proof.
  induction l as [|it l IH]; intros Hall; [done|].
  cbn [exported_rows fmap list_fmap].
  rewrite export_row_cells by (apply Hall, list_elem_of_here).
  cbn [exported_bind]. rewrite IH; [done|].
  intros x Hx. by apply Hall, list_elem_of_further.
Qed.

(** X18: [exportCSV] takes the collected results, or the queued handles
    while there are no results.  When the prompts are strings and the time
    values are in range it does not throw and writes a header and one row
    of nine cells per handle, in order: index, id, status, the prompt with
    its line feeds turned into spaces, the number of refs, the two times
    (empty for a zero or absent time) and the error and result texts (empty
    when absent); and the text written reads back as exactly that table. *)
Theorem exportCSV_table (results handles : list Handle) :
  let list := if 0 <? length results then results else handles in
  (∀ it, it ∈ list → exportable toISOString it) →
  let table := csv_header :: (export_cells toISOString <$> list) in
  exportCSV toISOString results handles = Exported (csv_text table)
  ∧ parse_csv (csv_text table) = Some table
  ∧ length table = S (length list)
  ∧ Forall (λ r, length r = 9) table
  ∧ (∀ r cell, r ∈ export_cells toISOString <$> list → r !! 3 = Some cell →
       has_char newline cell = false)
  ∧ (results ≠ [] → list = results) ∧ (results = [] → list = handles).
Proof.
  intros list Hall table.
  split; [|split; [|split; [|split; [|split; [|split]]]]].
  - unfold exportCSV. fold list. by rewrite exported_rows_cells.
  - apply parse_csv_text. subst table. apply Forall_cons. split; [done|].
    apply Forall_fmap, Forall_forall. by intros it _.
  - subst table. cbn. by rewrite length_fmap.
  - subst table. apply Forall_cons. split; [done|].
    apply Forall_fmap, Forall_forall. by intros it _.
  - intros r cell Hr Hcell. apply list_elem_of_fmap in Hr as (it & -> & _).
    cbn in Hcell. injection Hcell as <-.
    destruct (prompt (job it)); try done. apply replace_newlines_clean.
  - intros Hne. subst list. by destruct results.
  - intros ->. done.
Qed.

End ExportFacts.

Lemma exportCSV_table_witness :
  let iso := λ t : Z, Some ("T" +:+ pretty t) in
  let j := mkJob 0 (JStr ("a" +:+ str1 newline +:+ "b")) [JStr "R"] JNull in
  let h := mkHandle "job_x" succeeded j 5 (Some 9%Z) (Some "OK:0") None in
  exportCSV iso [h] []
  = Exported (csv_text [csv_header;
                        ["0"; "job_x"; "succeeded"; "a b"; "1"; "T5"; "T9";
                         ""; "OK:0"]]).
Proof.
  intros iso j h.
  destruct (exportCSV_table iso [h] []) as (H & _).
  - intros it Hit. apply list_elem_of_singleton in Hit as ->.
    split; [by eexists|]. split; [by eexists|]. intros t _. by eexists.
  - exact H.
Defined.

(** ** The list editor *)

Lemma trim_start_head (c : Ascii.ascii) (s : string) :
  is_js_space c = false → trim_start (String c s) = String c s.
Proof. intros Hc. cbn [trim_start]. by rewrite Hc. Qed.

(** After [trim_start] the string is empty or starts with a character that
    is not white space. *)
Lemma trim_start_shape (s : string) :
  trim_start s = ""
  ∨ ∃ c r, trim_start s = String c r ∧ is_js_space c = false.
Proof.
  induction s as [|c s IH]; [by left|]. cbn [trim_start].
  destruct (is_js_space c) eqn:E; [done|]. right. by exists c, s.
Qed.

Lemma trim_end_idem (s : string) : trim_end (trim_end s) = trim_end s.
Proof.
  induction s as [|c s IH]; [done|]. cbn [trim_end].
  destruct (trim_end s) as [|d r] eqn:E.
  - destruct (is_js_space c) eqn:Hc; [done|]. cbn. by rewrite Hc.
  - cbn [trim_end]. cbn [trim_end] in IH. by rewrite IH.
Qed.

Lemma trim_end_head (c : Ascii.ascii) (s : string) :
  is_js_space c = false →
  ∃ r, trim_end (String c s) = String c r.
Proof.
  intros Hc. cbn [trim_end]. destruct (trim_end s); rewrite ?Hc; by eexists.
Qed.

Lemma trim_idem (s : string) : trim (trim s) = trim s.
Proof.
  unfold trim at 2 3.
  destruct (trim_start_shape s) as [->|(c & r & -> & Hc)]; [done|].
  destruct (trim_end_head c r Hc) as [r' Hr'].
  unfold trim. rewrite Hr', (trim_start_head c r' Hc), <- Hr'.
  apply trim_end_idem.
Qed.

Lemma has_char_app (c : Ascii.ascii) (a b : string) :
  has_char c (a +:+ b) = has_char c a || has_char c b.
Proof.
  induction a as [|d a IH]; [done|].
  rewrite string_app_cons. cbn [has_char]. by rewrite IH, orb_assoc.
Qed.

Lemma trim_start_no_char (c : Ascii.ascii) (s : string) :
  has_char c s = false → has_char c (trim_start s) = false.
Proof.
  induction s as [|d s IH]; [done|]. cbn [trim_start has_char].
  intros H. apply orb_false_elim in H as [Hd Hs].
  destruct (is_js_space d); [by apply IH|]. cbn [has_char]. by rewrite Hd, Hs.
Qed.

Lemma trim_end_no_char (c : Ascii.ascii) (s : string) :
  has_char c s = false → has_char c (trim_end s) = false.
Proof.
  induction s as [|d s IH]; [done|]. cbn [trim_end has_char].
  intros H. apply orb_false_elim in H as [Hd Hs]. specialize (IH Hs).
  destruct (trim_end s) as [|e r].
  - destruct (is_js_space d); [done|]. cbn. by rewrite Hd.
  - cbn [has_char] in *. by rewrite Hd, IH.
Qed.

Lemma split_from_no_sep (sep : Ascii.ascii) (text cur : string) :
  has_char sep cur = false →
  Forall (λ piece, has_char sep piece = false) (split_from sep text cur).
Proof.
  revert cur. induction text as [|c text IH]; intros cur Hcur.
  - by repeat constructor.
  - cbn [split_from]. destruct (Ascii.eqb c sep) eqn:E.
    + constructor; [done|]. by apply IH.
    + apply IH. rewrite has_char_app, Hcur. cbn. by rewrite E.
Qed.

Lemma split_from_piece (sep : Ascii.ascii) (x rest cur : string) :
  has_char sep x = false →
  split_from sep (x +:+ rest) cur = split_from sep rest (cur +:+ x).
Proof.
  revert cur. induction x as [|c x IH]; intros cur Hx.
  - by rewrite string_app_nil_l, string_app_nil_r.
  - cbn [has_char] in Hx. apply orb_false_elim in Hx as [Hc Hx].
    rewrite string_app_cons. cbn [split_from]. rewrite Hc, IH by done.
    by rewrite string_app_assoc, str1_app.
Qed.

Lemma split_editor_text (x : string) (items : list string) :
  Forall (λ s, has_char newline s = false) (x :: items) →
  split newline (editor_text (x :: items)) = x :: items.
Proof.
  unfold split. revert x. induction items as [|y items IH]; intros x Hall.
  - apply Forall_cons in Hall as [Hx _].
    change (editor_text [x]) with x.
    rewrite <- (string_app_nil_r x) at 1.
    by rewrite split_from_piece, string_app_nil_l.
  - apply Forall_cons in Hall as [Hx Hall].
    change (editor_text (x :: y :: items))
      with (x +:+ str1 newline +:+ editor_text (y :: items)).
    rewrite split_from_piece, string_app_nil_l, str1_app by done.
    cbn [split_from]. change (Ascii.eqb newline newline) with true.
    cbv iota. by rewrite IH.
Qed.

Lemma clean_items_kept (l : list string) :
  Forall clean_item l → List.filter nonempty (List.map trim l) = l.
Proof.
  induction l as [|s l IH]; intros Hclean; [done|].
  apply Forall_cons in Hclean as [(Hne & _ & Htrim) Hl].
  cbn [List.map List.filter]. rewrite Htrim.
  unfold nonempty at 1. apply String.eqb_neq in Hne. rewrite Hne. cbn [negb].
  by rewrite IH.
Qed.

(** X19: whatever is typed, the list the editor hands over holds only clean
    items: none empty, none spanning lines, none with white space at its
    ends.  And the editor is stable: a list of clean items, shown as text
    and read back untouched, comes back as the same list. *)
Theorem editor_items_clean (text : string) (items : list string) :
  Forall clean_item (editor_items text)
  ∧ (Forall clean_item items → editor_items (editor_text items) = items).
Proof.
  split.
  - unfold editor_items. apply Forall_forall. intros s Hs.
    apply list_elem_of_In, filter_In in Hs as [Hin Hne].
    apply in_map_iff in Hin as (piece & <- & Hpiece).
    split; [|split].
    + unfold nonempty in Hne. apply negb_true_iff, String.eqb_neq in Hne. done.
    + unfold trim. apply trim_end_no_char, trim_start_no_char.
      pose proof (split_from_no_sep newline text "" eq_refl) as Hall.
      rewrite Forall_forall in Hall. apply Hall. by apply list_elem_of_In.
    + apply trim_idem.
  - intros Hclean. unfold editor_items.
    destruct items as [|x items]; [done|].
    rewrite split_editor_text.
    2:{ eapply Forall_impl; [exact Hclean|]. by intros s (_ & ? & _). }
    by apply clean_items_kept.
Qed.

Lemma editor_items_clean_witness :
  editor_items ("  street " +:+ str1 newline +:+ str1 newline +:+ "dusk")
  = ["street"; "dusk"]
  ∧ editor_items (editor_text ["street"; "dusk"]) = ["street"; "dusk"].
Proof.
  split; [reflexivity|].
  destruct (editor_items_clean "" ["street"; "dusk"]) as [_ H].
  apply H. repeat constructor; done.
Defined.
